(** * Dual-variant OCR pipeline ([02/be/ocr.py]): model and properties

    The script prepares two renderings of an image (contrast-enhanced, and
    inverted then contrast-enhanced), runs an OCR engine on both, keeps one
    of the two results and prints it as a JSON array.

    The embedding follows the script function by function:
    [detect_text_color], [preprocess_image], [process_image] and the
    [__main__] block ([main]).  The outside world is a record of the files
    on disk and the two output streams; the Pillow, numpy and PaddleOCR
    calls are the fields of a [Platform] class, each returning either the
    text of the exception it raises or its value.  Python floats are finite
    IEEE-754 doubles, written as the rational they denote, with every
    arithmetic operation rounded to nearest-even on 53 bits.  A path names
    one file (no links), paths are split as [posixpath] splits them, and a
    character of a string is a code point below 256. *)

From stdpp Require Import base gmap strings list pretty.
From Stdlib Require Import ZArith QArith Qround Qabs Qpower Lqa Lia String Ascii.
From Stdlib.Strings Require Import Byte.

(** An exception is kept as the text [str(e)] gives for it: the script
    never looks at anything else ([except Exception as e] everywhere, and
    [except ValueError] around [int] only). *)
Definition Exn := string.

(** The error monad of plain computations. *)
#[export] Instance sum_ret : MRet (sum Exn) := fun _ a => inr a.
#[export] Instance sum_bind : MBind (sum Exn) := fun _ _ f m =>
  match m with inl e => inl e | inr a => f a end.

(** ** Python floats *)

Module PyFloat.
Local Open Scope Q_scope.

(** A finite double, as the rational it denotes. *)
Definition float := Q.

(** For [x > 0], the integer [k] with [2^k <= x < 2^(k+1)]. *)
Definition ilog2 (x : Q) : Z :=
  let k := (Z.log2 (Qnum x) - Z.log2 (Zpos (Qden x)))%Z in
  if Qle_bool (2 ^ k) x then k else (k - 1)%Z.

(** Nearest integer, ties to even. *)
Definition rne (x : Q) : Z :=
  let f := Qfloor x in
  match Qcompare (x - inject_Z f) (1 # 2) with
  | Lt => f
  | Gt => (f + 1)%Z
  | Eq => if Z.even f then f else (f + 1)%Z
  end.

(** Exponent of the unit in the last place of the double nearest to [x]:
    53 significant bits, and the subnormal floor [2^-1074]. *)
Definition cexp (x : Q) : Z := Z.max (ilog2 (Qabs x) - 52) (-1074).

(** Round to nearest, ties to even, exponent unbounded above. *)
Definition round_double (x : Q) : float :=
  if Qeq_bool x 0 then 0
  else let e := cexp x in Qred (inject_Z (rne (x / 2 ^ e)) * 2 ^ e).

(** A rounded value of magnitude [2^1024] or more is an infinity. *)
Definition overflows (x : float) : bool := Qle_bool (2 ^ 1024) (Qabs x).

(** [int(x)] on a finite float: truncation toward zero. *)
Definition int_of_float (x : float) : Z :=
  if Qle_bool 0 x then Qfloor x else Qceiling x.

(** [a / b] on two Python ints: the correctly rounded quotient. *)
Definition truediv (a b : Z) : Exn + float :=
  if (b =? 0)%Z then inl "division by zero"%string
  else
    let q := round_double (inject_Z a / inject_Z b) in
    if overflows q then inl "integer division result too large for a float"%string
    else inr q.

(** The conversion of an int operand that [int * float] starts with. *)
Definition float_of_int (n : Z) : Exn + float :=
  let f := round_double (inject_Z n) in
  if overflows f then inl "int too large to convert to float"%string else inr f.

(** [min(a, b)]: the first argument unless the second is smaller. *)
Definition py_min (a b : float) : float :=
  if Qle_bool a b then a else b.

(** [int(n * ratio)] for an int [n] and a float [ratio]; a product that
    overflows is an infinity, which [int] refuses. *)
Definition scale (n : Z) (ratio : float) : Exn + Z :=
  f ← float_of_int n;
  let p := round_double (f * ratio) in
  if overflows p then inl "cannot convert float infinity to integer"%string
  else inr (int_of_float p).

(** [x + y] on floats.  Confidence scores lie in [0, 1]; their sums stay
    far from the overflow threshold, which is therefore left out here. *)
Definition fadd (x y : float) : float := round_double (x + y).

(** [x > y] on floats. *)
Definition fgt (x y : float) : bool := negb (Qle_bool x y).

End PyFloat.
Export PyFloat.

(** ** Python strings, [os.path.splitext] and [json.dumps] *)

Module PyStr.
Local Open Scope string_scope.

(** [s.rfind(c)], shifted by one so that it fits in [nat]: [0] when [c]
    does not occur, else one more than the index of its last occurrence. *)
Fixpoint rfind_from (c : ascii) (s : string) (i last : nat) : nat :=
  match s with
  | EmptyString => last
  | String a s' => rfind_from c s' (S i) (if Ascii.eqb a c then S i else last)
  end.

Definition rfind1 (c : ascii) (s : string) : nat := rfind_from c s 0 0.

(** [(p[:n], p[n:])]. *)
Fixpoint split_at (n : nat) (p : string) : string * string :=
  match n, p with
  | S n', String a p' => let '(l, r) := split_at n' p' in (String a l, r)
  | _, _ => (EmptyString, p)
  end.

(** The [while] loop of [genericpath._splitext]: is there a character
    other than a dot among the [n] characters from [filenameIndex] on? *)
Fixpoint has_name (p : string) (filenameIndex n : nat) : bool :=
  match n with
  | O => false
  | S n' =>
      match String.get filenameIndex p with
      | Some "."%char => has_name p (S filenameIndex) n'
      | _ => true
      end
  end.

(** [os.path.splitext] of [posixpath]: the extension starts at the last
    dot of the last path component, leading dots of the component apart. *)
Definition splitext (p : string) : string * string :=
  let sep1 := rfind1 "/"%char p in
  let dot1 := rfind1 "."%char p in
  if (sep1 <? dot1)%nat && has_name p sep1 (dot1 - 1 - sep1)
  then split_at (dot1 - 1) p
  else (p, EmptyString).

(** JSON values as the script builds them. *)
Unset Elimination Schemes.
Inductive json : Type :=
| JStr (s : string)
| JNum (x : float)
| JArr (l : list json)
| JObj (l : list (string * json)).
Set Elimination Schemes.

Definition hex_digit (n : N) : ascii :=
  match n with
  | 0 => "0" | 1 => "1" | 2 => "2" | 3 => "3" | 4 => "4" | 5 => "5"
  | 6 => "6" | 7 => "7" | 8 => "8" | 9 => "9" | 10 => "a" | 11 => "b"
  | 12 => "c" | 13 => "d" | 14 => "e" | _ => "f"
  end%N%char.

Definition dquote : ascii := "034".

(** One character of a JSON string under [ensure_ascii=True].  A character
    of the model is a code point below 256. *)
Definition escape_char (c : ascii) : string :=
  let n := N_of_ascii c in
  if (n =? 34)%N then String "\" (String dquote EmptyString)
  else if (n =? 92)%N then "\\"
  else if (n =? 10)%N then "\n"
  else if (n =? 13)%N then "\r"
  else if (n =? 9)%N then "\t"
  else if (n =? 8)%N then "\b"
  else if (n =? 12)%N then "\f"
  else if ((32 <=? n) && (n <=? 126))%N then String c EmptyString
  else "\u00" ++ String (hex_digit (n / 16)) (String (hex_digit (n mod 16)) EmptyString).

Fixpoint escape (s : string) : string :=
  match s with
  | EmptyString => EmptyString
  | String c s' => escape_char c ++ escape s'
  end.

Definition quote (s : string) : string :=
  String dquote (escape s ++ String dquote EmptyString).

(** [", ".join(l)]. *)
Fixpoint join (l : list string) : string :=
  match l with
  | [] => EmptyString
  | [s] => s
  | s :: l' => s ++ ", " ++ join l'
  end.

Section Dumps.
Variable float_repr : float -> string.

(** [json.dumps] with its default separators. *)
Fixpoint json_dumps (j : json) : string :=
  match j with
  | JStr s => quote s
  | JNum x => float_repr x
  | JArr l => "[" ++ join (map json_dumps l) ++ "]"
  | JObj l =>
      "{" ++ join (map (fun kv => quote (fst kv) ++ ": " ++ json_dumps (snd kv)) l) ++ "}"
  end.
End Dumps.

End PyStr.
Export PyStr.

(** ** Data model *)

(** One unit of engine output, the Python value
    [[coords, (text, confidence)]]: [line[0]] is a list of [[x, y]] points,
    [line[1][0]] the text and [line[1][1]] the confidence. *)
Record Line := {
  coords : list (list float);
  text : string;
  confidence : float
}.

(** What [ocr.ocr(path, cls=True)] returns, with the shapes the script
    guards against: [None], or a list whose items are [None] or a list of
    lines. *)
Definition Page := option (list Line).
Definition OcrResult := option (list Page).

(** Truth value of a result and of a page: [None] and [[]] are false. *)
Definition truthy (r : OcrResult) : bool :=
  match r with Some (_ :: _) => true | _ => false end.

Definition truthy_page (p : Page) : bool :=
  match p with Some (_ :: _) => true | _ => false end.

(** [r[0]]; the script evaluates it behind [r and ...] only. *)
Definition item0 (r : OcrResult) : Page :=
  match r with Some (p :: _) => p | _ => None end.

(** [len(r[0])] and [sum(line[1][1] for line in r[0])]: [sum] starts from
    the int [0] and adds from left to right, rounding each partial sum
    (CPython from 3.12 on compensates the rounding error of the partial
    sums; the selection rule reads the two sums only through [>]). *)
Definition count (r : OcrResult) : nat :=
  match item0 r with Some ls => List.length ls | None => 0%nat end.

Definition sum_confidence (ls : list Line) : float :=
  fold_left (fun acc line => fadd acc (confidence line)) ls 0%Q.

Definition conf (r : OcrResult) : float :=
  if (0 <? count r)%nat
  then match item0 r with Some ls => sum_confidence ls | None => 0%Q end
  else 0%Q.

(** Lines 99-126 of [process_image]. *)
Definition select_result (result_enhanced result_inverted : OcrResult)
    (invert_needed : bool) : OcrResult :=
  if truthy result_enhanced && truthy_page (item0 result_enhanced)
     && (negb (truthy result_inverted) || negb (truthy_page (item0 result_inverted)))
  then result_enhanced
  else if truthy result_inverted && truthy_page (item0 result_inverted)
     && (negb (truthy result_enhanced) || negb (truthy_page (item0 result_enhanced)))
  then result_inverted
  else if truthy result_enhanced && truthy result_inverted
     && truthy_page (item0 result_enhanced) && truthy_page (item0 result_inverted)
  then
    let count_enhanced := count result_enhanced in
    let count_inverted := count result_inverted in
    let conf_enhanced := conf result_enhanced in
    let conf_inverted := conf result_inverted in
    if invert_needed && (0 <? count_inverted)%nat then result_inverted
    else if (count_enhanced <? count_inverted)%nat then result_inverted
    else if (count_inverted <? count_enhanced)%nat then result_enhanced
    else if fgt conf_inverted conf_enhanced then result_inverted
    else result_enhanced
  else Some [None].

(** Lines 129-141: the output records of the selected result. *)
Definition record_of (line : Line) : json :=
  JObj [("coords", JArr (map (fun pt => JArr (map JNum pt)) (coords line)));
        ("text", JStr (text line));
        ("confidence", JNum (confidence line))]%string.

Definition json_result (result : OcrResult) : list json :=
  if truthy result && truthy_page (item0 result)
  then match item0 result with Some ls => map record_of ls | None => [] end
  else [].

Definition error_payload (msg : string) : json :=
  JArr [JObj [("error"%string, JStr msg)]].

(** ** The libraries the script calls *)

Class Platform := {
  (** contents of a file on disk *)
  File : Type;
  (** a Pillow image object *)
  Image : Type;
  (** [Image.open] on an existing file *)
  pil_open : File -> Exn + Image;
  (** message of the error raised for a path that does not exist *)
  no_such_file : string -> Exn;
  (** [img.size], as [(width, height)] *)
  img_size : Image -> Z * Z;
  (** [np.array(img.convert('L'))]: the 8-bit grey levels *)
  pil_gray : Image -> Exn + list byte;
  (** [img.resize((w, h), Image.LANCZOS)] *)
  pil_resize : Image -> Z * Z -> Exn + Image;
  (** [ImageEnhance.Contrast(img).enhance(2.0)] *)
  pil_contrast : Image -> Exn + Image;
  (** [ImageOps.invert(img.convert('RGB'))] *)
  pil_invert : Image -> Exn + Image;
  (** [img.save(path, quality=95, optimize=True)]: from the image, the
      path and what was at the path, what is at the path afterwards and
      whether the call raised *)
  pil_save : Image -> string -> option File -> option File * (Exn + ());
  (** [PaddleOCR(use_angle_cls=True, lang='ch', show_log=False, use_gpu=False)] *)
  paddle_init : Exn + ();
  (** [ocr.ocr(path, cls=True)], reading the files on disk *)
  paddle_ocr : gmap string File -> string -> Exn + OcrResult;
  (** [int(s)]; [None] stands for [ValueError] *)
  py_int : string -> option Z;
  (** [repr] of a float, as [json.dumps] prints it *)
  float_repr : float -> string
}.

(** ** The world and its monad *)

Section Program.
Context `{P : Platform}.

Record World := {
  files : gmap string File;
  stdout : list string;
  stderr : list string
}.

(** A computation changes the world and raises or returns. *)
Definition M (A : Type) : Type := World -> World * (Exn + A).

#[export] Instance M_ret : MRet M := fun _ a w => (w, inr a).
#[export] Instance M_bind : MBind M := fun _ _ f m w =>
  match m w with
  | (w', inl e) => (w', inl e)
  | (w', inr a) => f a w'
  end.

(** A call that raises or returns without touching the world. *)
Definition call {A} (r : Exn + A) : M A := fun w => (w, r).

(** A function with its own handler never raises. *)
Definition total {A} (f : World -> World * A) : M A :=
  fun w => let '(w', a) := f w in (w', inr a).

(** [try: body / except Exception as e: handler(e)]. *)
Definition try_except {A} (body : M A) (handler : Exn -> World -> World * A)
    : World -> World * A :=
  fun w =>
    match body w with
    | (w', inr a) => (w', a)
    | (w', inl e) => handler e w'
    end.

(** [print(s)] and [print(s, file=sys.stderr)]. *)
Definition print (s : string) (w : World) : World :=
  {| files := files w; stdout := stdout w ++ [s]; stderr := stderr w |}.

Definition eprint (s : string) (w : World) : World :=
  {| files := files w; stdout := stdout w; stderr := stderr w ++ [s] |}.

Definition dumps : json -> string := json_dumps float_repr.

(** [Image.open(path)]. *)
Definition Image_open (path : string) : M Image := fun w =>
  match files w !! path with
  | Some f => (w, pil_open f)
  | None => (w, inl (no_such_file path))
  end.

(** [img.save(path, ...)]: only the file at [path] can change. *)
Definition Image_save (img : Image) (path : string) : M () := fun w =>
  let '(f', r) := pil_save img path (files w !! path) in
  ({| files := partial_alter (fun _ => f') path (files w);
      stdout := stdout w; stderr := stderr w |}, r).

(** [os.path.exists(path)] and [os.remove(path)]. *)
Definition path_exists (path : string) : M bool := fun w =>
  (w, inr (bool_decide (is_Some (files w !! path)))).

Definition os_remove (path : string) : M () := fun w =>
  match files w !! path with
  | Some _ =>
      ({| files := delete path (files w); stdout := stdout w; stderr := stderr w |},
       inr ())
  | None => (w, inl (no_such_file path))
  end.

(** [ocr.ocr(path, cls=True)]. *)
Definition ocr (path : string) : M OcrResult := fun w =>
  (w, paddle_ocr (files w) path).

(** ** [detect_text_color] *)

(** [np.histogram(a, bins=256, range=(0, 256))[0]] on 8-bit values: the
    buckets are [[i, i+1)], so bucket [i] counts the pixels of value [i]. *)
Definition count_level (i : nat) (img_array : list byte) : Z :=
  Z.of_nat (List.length
    (List.filter (fun b => N.eqb (Byte.to_N b) (N.of_nat i)) img_array)).

Definition histogram (img_array : list byte) : list Z :=
  map (fun i => count_level i img_array) (seq 0 256).

(** [np.sum]. *)
Definition np_sum (l : list Z) : Z := fold_right Z.add 0%Z l.

(** Lines 15-27. *)
Definition detect_body (image_path : string) : M bool :=
  img ← Image_open image_path;
  img_array ← call (pil_gray img);
  let hist := histogram img_array in
  let dark_pixels := np_sum (take 128 hist) in
  let light_pixels := np_sum (drop 128 hist) in
  mret (light_pixels <? dark_pixels)%Z.

Definition detect_text_color (image_path : string) : World -> World * bool :=
  try_except (detect_body image_path)
    (fun e w => (eprint ("Warning: Error detecting text color: " ++ e)%string w, false)).

(** ** [preprocess_image] *)

(** Lines 46-48. *)
Definition scaled_size (width height max_width max_height : Z) : Exn + (Z * Z) :=
  rw ← truediv max_width width;
  rh ← truediv max_height height;
  let ratio := py_min rw rh in
  new_width ← scale width ratio;
  new_height ← scale height ratio;
  mret (new_width, new_height).

(** Lines 44-49: the image that goes on to the two renderings. *)
Definition resize_if_needed (img : Image) (max_width max_height : Z) : Exn + Image :=
  let '(width, height) := img_size img in
  if (max_width <? width)%Z || (max_height <? height)%Z
  then new_size ← scaled_size width height max_width max_height;
       pil_resize img new_size
  else mret img.

(** Lines 65-67. *)
Definition enhanced_path_of (image_path : string) : string :=
  let '(file_name, file_ext) := splitext image_path in
  (file_name ++ "_enhanced" ++ file_ext)%string.

Definition inverted_path_of (image_path : string) : string :=
  let '(file_name, file_ext) := splitext image_path in
  (file_name ++ "_inverted" ++ file_ext)%string.

(** Lines 41-72. *)
Definition preprocess_body (image_path : string) (max_width max_height : Z)
    : M (string * option string * bool) :=
  img ← Image_open image_path;
  img ← call (resize_if_needed img max_width max_height);
  invert_needed ← total (detect_text_color image_path);
  img_enhanced ← call (pil_contrast img);
  img_inverted ← call (pil_invert img);
  img_inverted_enhanced ← call (pil_contrast img_inverted);
  let enhanced_path := enhanced_path_of image_path in
  let inverted_path := inverted_path_of image_path in
  Image_save img_enhanced enhanced_path;;
  Image_save img_inverted_enhanced inverted_path;;
  mret (enhanced_path, Some inverted_path, invert_needed).

Definition preprocess_image (image_path : string) (max_width max_height : Z)
    : World -> World * (string * option string * bool) :=
  try_except (preprocess_body image_path max_width max_height)
    (fun e w =>
       (eprint (dumps (error_payload ("Error preprocessing image: " ++ e)%string)) w,
        (image_path, None, false))).

(** ** [process_image] *)

(** Truth value of [inverted_path]: [None] and the empty string are false. *)
Definition truthy_path (p : option string) : bool :=
  match p with
  | Some s => negb (String.eqb s EmptyString)
  | None => false
  end.

(** [if os.path.exists(path): os.remove(path)]. *)
Definition remove_if_exists (path : string) : M () :=
  e ← path_exists path;
  if e : bool then os_remove path else mret ().

(** Lines 92-95. *)
Definition remove_temporaries (image_path enhanced_path : string)
    (inverted_path : option string) : M () :=
  (if negb (String.eqb enhanced_path image_path)
   then remove_if_exists enhanced_path else mret ());;
  match inverted_path with
  | Some p => if truthy_path inverted_path then remove_if_exists p else mret ()
  | None => mret ()
  end.

(** Lines 87-89: the inverted rendering is recognised only if there is one. *)
Definition ocr_if_present (inverted_path : option string) : M OcrResult :=
  match inverted_path with
  | Some p => if truthy_path inverted_path then ocr p else mret None
  | None => mret None
  end.

(** Lines 80-144. *)
Definition process_body (image_path : string) (max_width max_height : Z) : M () :=
  '(enhanced_path, inverted_path, invert_needed) ←
     total (preprocess_image image_path max_width max_height);
  call paddle_init;;
  result_enhanced ← ocr enhanced_path;
  result_inverted ← ocr_if_present inverted_path;
  remove_temporaries image_path enhanced_path inverted_path;;
  let result := select_result result_enhanced result_inverted invert_needed in
  total (fun w => (print (dumps (JArr (json_result result))) w, ())).

Definition process_image (image_path : string) (max_width max_height : Z)
    : World -> World :=
  fun w =>
    fst (try_except (process_body image_path max_width max_height)
           (fun e w => (print (dumps (error_payload e)) w, ())) w).

(** ** The [__main__] block *)

(** Lines 160-164 and 166-170: [int] of the argument if there is one and it
    parses, the value held so far otherwise. *)
Definition bound_from (arg : option string) (default : Z) : Z :=
  match arg with
  | Some s => match py_int s with Some n => n | None => default end
  | None => default
  end.

(** The world after the run and the exit status of the process. *)
Definition main (argv : list string) (w : World) : World * Z :=
  if (List.length argv <? 2)%nat
  then (print (dumps (error_payload "No image path provided")) w, 1%Z)
  else
    let image_path := nth 1 argv EmptyString in
    let max_width := 1600%Z in
    let max_height := 1600%Z in
    let max_width := bound_from (argv !! 2%nat) max_width in
    let max_height := bound_from (argv !! 3%nat) max_height in
    (process_image image_path max_width max_height w, 0%Z).

End Program.

(** ** The specification's vocabulary *)

(** The two values of the colour-bias flag: [detect_text_color] returns
    [True] for light text on a dark ground. *)
Inductive ColorBias := LightTextOnDark | DarkTextOnLight.

Definition bias_of (invert_needed : bool) : ColorBias :=
  if invert_needed then LightTextOnDark else DarkTextOnLight.

Definition is_light (colorBias : ColorBias) : bool :=
  match colorBias with LightTextOnDark => true | DarkTextOnLight => false end.

(** The detections of a recognition result: none when the result is
    absent ([None], [[]], [[None]]) or empty ([[[]]]). *)
Definition batch_of (r : OcrResult) : list Line :=
  match r with
  | Some (Some ls :: _) => ls
  | _ => []
  end.

(** The selection rule in the words of the specification (4.3, step 5),
    on the two batches of detections. *)
Definition arbiter_rule (batchE batchI : list Line) (colorBias : ColorBias)
    : list Line :=
  let has_detections (b : list Line) := negb (Nat.eqb (List.length b) 0) in
  let countE := List.length batchE in
  let countI := List.length batchI in
  let confE := sum_confidence batchE in
  let confI := sum_confidence batchI in
  if has_detections batchE && negb (has_detections batchI) then batchE
  else if has_detections batchI && negb (has_detections batchE) then batchI
  else if has_detections batchE && has_detections batchI then
    if is_light colorBias && (0 <? countI)%nat then batchI
    else if (countE <? countI)%nat then batchI
    else if (countI <? countE)%nat then batchE
    else if fgt confI confE then batchI
    else batchE
  else [].

(** Number of pixels whose grey level satisfies [p]. *)
Definition pixels_where (p : N -> bool) (img_array : list byte) : Z :=
  Z.of_nat (List.length (List.filter (fun b => p (Byte.to_N b)) img_array)).

(** What a computation may do to the world. *)
Section Observing.
Context `{P : Platform}.

(** [m] changes no file outside [S]. *)
Definition confined {A} (S : string -> Prop) (m : M A) : Prop :=
  forall w, (forall q, ~ S q -> files (fst (m w)) !! q = files w !! q).

(** [m] prints nothing on standard output. *)
Definition silent {A} (m : M A) : Prop :=
  forall w, stdout (fst (m w)) = stdout w.

(** [m] raises in no world. *)
Definition never_raises {A} (m : M A) : Prop :=
  forall w, exists a, snd (m w) = inr a.

End Observing.

(** A JSON text written with apostrophes for its double quotes. *)
Fixpoint dq (s : string) : string :=
  match s with
  | EmptyString => EmptyString
  | String c s' => String (if Ascii.eqb c "'" then dquote else c) (dq s')
  end.

(** The ways the guarded block of [preprocess_image] can raise, step by
    step: load, resize, enhance, invert, enhance the inverted image, save
    the one rendering, save the other. *)
Section Failures.
Context `{P : Platform}.

Inductive PreprocessFails (image_path : string) (max_width max_height : Z)
    (w : World) (e : Exn) : Prop :=
| fails_load :
    snd (Image_open image_path w) = inl e ->
    PreprocessFails image_path max_width max_height w e
| fails_resize img :
    snd (Image_open image_path w) = inr img ->
    resize_if_needed img max_width max_height = inl e ->
    PreprocessFails image_path max_width max_height w e
| fails_enhance img img' :
    snd (Image_open image_path w) = inr img ->
    resize_if_needed img max_width max_height = inr img' ->
    pil_contrast img' = inl e ->
    PreprocessFails image_path max_width max_height w e
| fails_invert img img' img_enhanced :
    snd (Image_open image_path w) = inr img ->
    resize_if_needed img max_width max_height = inr img' ->
    pil_contrast img' = inr img_enhanced ->
    pil_invert img' = inl e ->
    PreprocessFails image_path max_width max_height w e
| fails_enhance_inverted img img' img_enhanced img_inverted :
    snd (Image_open image_path w) = inr img ->
    resize_if_needed img max_width max_height = inr img' ->
    pil_contrast img' = inr img_enhanced ->
    pil_invert img' = inr img_inverted ->
    pil_contrast img_inverted = inl e ->
    PreprocessFails image_path max_width max_height w e
| fails_save_enhanced img img' img_enhanced img_inverted img_inverted_enhanced :
    snd (Image_open image_path w) = inr img ->
    resize_if_needed img max_width max_height = inr img' ->
    pil_contrast img' = inr img_enhanced ->
    pil_invert img' = inr img_inverted ->
    pil_contrast img_inverted = inr img_inverted_enhanced ->
    snd (pil_save img_enhanced (enhanced_path_of image_path)
           (files w !! enhanced_path_of image_path)) = inl e ->
    PreprocessFails image_path max_width max_height w e
| fails_save_inverted img img' img_enhanced img_inverted img_inverted_enhanced w1 :
    snd (Image_open image_path w) = inr img ->
    resize_if_needed img max_width max_height = inr img' ->
    pil_contrast img' = inr img_enhanced ->
    pil_invert img' = inr img_inverted ->
    pil_contrast img_inverted = inr img_inverted_enhanced ->
    Image_save img_enhanced (enhanced_path_of image_path)
      (fst (detect_text_color image_path w)) = (w1, inr ()) ->
    snd (pil_save img_inverted_enhanced (inverted_path_of image_path)
           (files w1 !! inverted_path_of image_path)) = inl e ->
    PreprocessFails image_path max_width max_height w e.

End Failures.



Section Cleaning.
Context `{P : Platform}.

(** The files that lines 92-95 leave on disk. *)
Definition without_temporaries (image_path enhanced_path : string)
    (inverted_path : option string) (fs : gmap string File) : gmap string File :=
  let fs1 := if negb (String.eqb enhanced_path image_path)
             then delete enhanced_path fs else fs in
  match inverted_path with
  | Some p => if truthy_path inverted_path then delete p fs1 else fs1
  | None => fs1
  end.

End Cleaning.

(** ** A small platform to run the model on *)

Module Demo.
Local Open Scope string_scope.

(** A picture: its size, its grey levels, and whether its data decodes. *)
Record Pic := {
  pic_size : Z * Z;
  pic_gray : list byte;
  pic_sound : bool
}.

Fixpoint digits_value (s : string) (acc : Z) : option Z :=
  match s with
  | EmptyString => Some acc
  | String c s' =>
      let n := N_of_ascii c in
      if ((48 <=? n) && (n <=? 57))%N
      then digits_value s' (10 * acc + Z.of_N (n - 48))%Z
      else None
  end.

(** Decimal numerals with an optional sign. *)
Definition demo_int (s : string) : option Z :=
  match s with
  | EmptyString => None
  | String "-" (String c s') => Z.opp <$> digits_value (String c s') 0
  | String "+" (String c s') => digits_value (String c s') 0
  | _ => digits_value s 0
  end.

Fixpoint frac_digits (fuel : nat) (q : Q) : string :=
  match fuel with
  | O => EmptyString
  | S n =>
      if Qeq_bool q 0 then EmptyString
      else
        let d := Qfloor (q * 10) in
        String (ascii_of_N (48 + Z.to_N d)) (frac_digits n (q * 10 - inject_Z d)%Q)
  end.

(** Decimal expansion of a non-negative float, to 17 places at most. *)
Definition demo_repr (x : float) : string :=
  let i := Qfloor x in
  let f := frac_digits 17 (x - inject_Z i)%Q in
  pretty i ++ "." ++ (if String.eqb f EmptyString then "0" else f).

Definition demo_platform (engine : gmap string Pic -> string -> Exn + OcrResult)
    : Platform := {|
  File := Pic;
  Image := Pic;
  pil_open f := inr f;
  no_such_file p := "[Errno 2] No such file or directory: '" ++ p ++ "'";
  img_size := pic_size;
  pil_gray img :=
    if pic_sound img then inr (pic_gray img) else inl "image file is truncated";
  pil_resize img size :=
    inr {| pic_size := size; pic_gray := pic_gray img; pic_sound := pic_sound img |};
  pil_contrast img := inr img;
  pil_invert img := inr img;
  pil_save img path old := (Some img, inr ());
  paddle_init := inr ();
  paddle_ocr := engine;
  py_int := demo_int;
  float_repr := demo_repr
|}.

Definition line (t : string) (c : float) : Line :=
  {| coords := [[0; 0]; [1; 0]; [1; 1]; [0; 1]]%Q; text := t; confidence := c |}.

(** An engine that reads five lines on the enhanced rendering and three on
    the inverted one. *)
Definition engine_5_3 (fs : gmap string Pic) (path : string) : Exn + OcrResult :=
  if String.eqb path "photo_enhanced.png"
  then inr (Some [Some [line "a" (1#2); line "b" (1#2); line "c" (1#2);
                        line "d" (1#2); line "e" (1#2)]])
  else inr (Some [Some [line "x" (3#4); line "y" (3#4); line "z" (3#4)]]).

(** An engine that finds nothing: [[None]] on every file. *)
Definition engine_blank (fs : gmap string Pic) (path : string) : Exn + OcrResult :=
  inr (Some [None]).

(** An engine that raises on every call. *)
Definition engine_down (fs : gmap string Pic) (path : string) : Exn + OcrResult :=
  inl "engine failure".

(** An engine that raises on the enhanced rendering and reads one line on
    the inverted one. *)
Definition engine_enhanced_down (fs : gmap string Pic) (path : string)
    : Exn + OcrResult :=
  if String.eqb path "photo_enhanced.png"
  then inl "engine failure"
  else inr (Some [Some [line "x" (3#4)]]).

(** An engine that finds nothing on the enhanced rendering and one line on
    the inverted one. *)
Definition engine_inverted_only (fs : gmap string Pic) (path : string)
    : Exn + OcrResult :=
  if String.eqb path "photo_enhanced.png"
  then inr (Some [None])
  else inr (Some [Some [line "x" (3#4)]]).

(** A dark 2 x 2 picture, a tall one, and a truncated one. *)
Definition dark_pic : Pic :=
  {| pic_size := (2, 2)%Z; pic_gray := ["010"; "020"; "200"; "030"]%byte;
     pic_sound := true |}.

Definition tall_pic : Pic :=
  {| pic_size := (2156, 3000)%Z; pic_gray := []; pic_sound := true |}.

Definition torn_pic : Pic :=
  {| pic_size := (2, 2)%Z; pic_gray := []; pic_sound := false |}.

(** The same platform on a disk that refuses to write the path [full]. *)
Definition demo_platform_refusing (full : string)
    (engine : gmap string Pic -> string -> Exn + OcrResult) : Platform := {|
  File := Pic;
  Image := Pic;
  pil_open f := inr f;
  no_such_file p := "[Errno 2] No such file or directory: '" ++ p ++ "'";
  img_size := pic_size;
  pil_gray img :=
    if pic_sound img then inr (pic_gray img) else inl "image file is truncated";
  pil_resize img size :=
    inr {| pic_size := size; pic_gray := pic_gray img; pic_sound := pic_sound img |};
  pil_contrast img := inr img;
  pil_invert img := inr img;
  pil_save img path old :=
    if String.eqb path full
    then (old, inl "[Errno 28] No space left on device")
    else (Some img, inr ());
  paddle_init := inr ();
  paddle_ocr := engine;
  py_int := demo_int;
  float_repr := demo_repr
|}.

(** A picture of no width. *)
Definition flat_pic : Pic :=
  {| pic_size := (0, 3000)%Z; pic_gray := []; pic_sound := true |}.

Definition world_of (P : Platform) (fs : gmap string (@File P)) : @World P :=
  {| files := fs; stdout := []; stderr := [] |}.

End Demo.

(** * Properties *)

(** ** Rounding *)

Section FloatFacts.
Local Open Scope Q_scope.

Lemma pow2_pos (e : Z) : 0 < 2 ^ e.
Proof. apply Qpower_0_lt. reflexivity. Qed.

Lemma pow2_add (a b : Z) : 2 ^ (a + b) == 2 ^ a * 2 ^ b.
Proof. apply Qpower_plus. discriminate. Qed.

Lemma pow2_succ (a : Z) : 2 ^ (a + 1) == 2 * 2 ^ a.
Proof. rewrite pow2_add. change (2 ^ 1) with 2. ring. Qed.

Lemma pow2_le (a b : Z) : (a <= b)%Z -> 2 ^ a <= 2 ^ b.
Proof. intros. apply Qpower_le_compat_l; [assumption | discriminate]. Qed.

Lemma pow2_lt (a b : Z) : (a < b)%Z -> 2 ^ a < 2 ^ b.
Proof. intros. apply Qpower_lt_compat_l; [assumption | reflexivity]. Qed.

Lemma pow2_lt_inv (a b : Z) : 2 ^ a < 2 ^ b -> (a < b)%Z.
Proof. intros. apply (Qpower_lt_compat_l_inv 2); [assumption | reflexivity]. Qed.

Lemma pow2_inject (n : Z) : (0 <= n)%Z -> inject_Z (2 ^ n) == 2 ^ n.
Proof. intros. apply (Zpower_Qpower 2 n). assumption. Qed.

Lemma Qabs_pos_eq (x : Q) : 0 < x -> Qabs x = x.
Proof.
  destruct x as [n d]. unfold Qlt, Qabs. simpl. intros H.
  f_equal. apply Z.abs_eq. lia.
Qed.

Lemma ilog2_spec (x : Q) :
  0 < x -> 2 ^ ilog2 x <= x /\ x < 2 ^ (ilog2 x + 1).
Proof.
  intros Hx. unfold ilog2.
  destruct x as [n d]. simpl Qnum. simpl Qden.
  assert (Hn : (0 < n)%Z) by (unfold Qlt in Hx; simpl in Hx; lia).
  set (a := Z.log2 n). set (b := Z.log2 (Z.pos d)).
  destruct (Z.log2_spec n Hn) as [Ha1 Ha2]. fold a in Ha1, Ha2.
  destruct (Z.log2_spec (Z.pos d) eq_refl) as [Hb1 Hb2]. fold b in Hb1, Hb2.
  assert (Ha0 : (0 <= a)%Z) by apply Z.log2_nonneg.
  assert (Hb0 : (0 <= b)%Z) by apply Z.log2_nonneg.
  rewrite Zle_Qle in Ha1, Hb1. rewrite Zlt_Qlt in Ha2, Hb2.
  rewrite Z.pow_succ_r in Ha2, Hb2 by assumption.
  rewrite inject_Z_mult in Ha2, Hb2.
  rewrite pow2_inject in Ha1, Ha2, Hb1, Hb2 by assumption.
  change (inject_Z 2) with 2 in Ha2, Hb2.
  assert (Hd : 0 < inject_Z (Z.pos d)) by reflexivity.
  assert (Hxd : (n # d) * inject_Z (Z.pos d) == inject_Z n).
  { rewrite Qmake_Qdiv. field. intros E. rewrite E in Hd. discriminate. }
  assert (Hk : 2 ^ a == 2 ^ (a - b) * 2 ^ b).
  { rewrite <- pow2_add. f_equiv. lia. }
  pose proof (pow2_pos (a - b)) as Hp.
  pose proof (pow2_pos b) as Hpb.
  destruct (Qle_bool (2 ^ (a - b)) (n # d)) eqn:E.
  - apply Qle_bool_iff in E. split; [assumption|].
    rewrite pow2_succ.
    apply (Qmult_lt_r _ _ (inject_Z (Z.pos d)) Hd). rewrite Hxd.
    generalize dependent (2 ^ (a - b)). generalize dependent (2 ^ a).
    generalize dependent (2 ^ b). generalize dependent (inject_Z (Z.pos d)).
    generalize dependent (inject_Z n). intros. nra.
  - assert (E' : (n # d) < 2 ^ (a - b)).
    { apply Qnot_le_lt. intros C. apply Qle_bool_iff in C. congruence. }
    replace (a - b - 1 + 1)%Z with (a - b)%Z by lia.
    split; [|assumption].
    assert (Hk' : 2 ^ (a - b) == 2 * 2 ^ (a - b - 1)).
    { rewrite <- pow2_succ. f_equiv. lia. }
    pose proof (pow2_pos (a - b - 1)) as Hp'.
    apply (Qmult_le_r _ _ (inject_Z (Z.pos d)) Hd). rewrite Hxd.
    generalize dependent (2 ^ (a - b - 1)).
    generalize dependent (2 ^ (a - b)). generalize dependent (2 ^ a).
    generalize dependent (2 ^ b). generalize dependent (inject_Z (Z.pos d)).
    generalize dependent (inject_Z n). intros. nra.
Qed.


Lemma rne_le (x : Q) (k : Z) : x <= inject_Z k -> (rne x <= k)%Z.
Proof.
  intros H. unfold rne.
  pose proof (Qfloor_le x) as Hf. pose proof (Qlt_floor x) as Hf'.
  assert (Hk : (Qfloor x <= k)%Z).
  { rewrite <- (Qfloor_Z k). apply Qfloor_resp_le. assumption. }
  destruct (Qcompare_spec (x - inject_Z (Qfloor x)) (1 # 2)) as [E|E|E].
  - destruct (Z.even (Qfloor x)); [assumption|].
    destruct (Z.eq_dec (Qfloor x) k) as [Ek|]; [exfalso; rewrite Ek in *; lra | lia].
  - assumption.
  - destruct (Z.eq_dec (Qfloor x) k) as [Ek|]; [exfalso; rewrite Ek in *; lra | lia].
Qed.

Lemma rne_ge (x : Q) (k : Z) : inject_Z k <= x -> (k <= rne x)%Z.
Proof.
  intros H. unfold rne.
  assert (Hk : (k <= Qfloor x)%Z).
  { rewrite <- (Qfloor_Z k). apply Qfloor_resp_le. assumption. }
  destruct (Qcompare (x - inject_Z (Qfloor x)) (1 # 2));
    [destruct (Z.even (Qfloor x))| |]; lia.
Qed.

Lemma rne_near (x : Q) :
  x - (1 # 2) <= inject_Z (rne x) /\ inject_Z (rne x) <= x + (1 # 2).
Proof.
  unfold rne.
  pose proof (Qfloor_le x) as Hf. pose proof (Qlt_floor x) as Hf'.
  rewrite inject_Z_plus in Hf'. change (inject_Z 1) with 1 in Hf'.
  destruct (Qcompare_spec (x - inject_Z (Qfloor x)) (1 # 2)) as [E|E|E].
  - destruct (Z.even (Qfloor x)); [|rewrite inject_Z_plus; change (inject_Z 1) with 1];
      lra.
  - lra.
  - rewrite inject_Z_plus; change (inject_Z 1) with 1. lra.
Qed.

Lemma round_double_pos_eq (x : Q) :
  0 < x ->
  round_double x == inject_Z (rne (x / 2 ^ cexp x)) * 2 ^ cexp x.
Proof.
  intros Hx. unfold round_double.
  destruct (Qeq_bool x 0) eqn:E.
  - apply Qeq_bool_eq in E. lra.
  - cbv zeta. apply Qred_correct.
Qed.

Lemma cexp_pos (x : Q) :
  0 < x -> cexp x = Z.max (ilog2 x - 52) (-1074).
Proof. intros Hx. unfold cexp. rewrite Qabs_pos_eq by assumption. reflexivity. Qed.

Lemma cexp_le (y : Q) (j : Z) :
  0 < y -> y < 2 ^ (j + 53) -> (-1074 <= j)%Z -> (cexp y <= j)%Z.
Proof.
  intros Hy Hlt Hj. rewrite cexp_pos by assumption.
  destruct (ilog2_spec y Hy) as [Hl _].
  assert (ilog2 y < j + 53)%Z by (apply pow2_lt_inv; lra).
  lia.
Qed.

(** Rounding never jumps over a number of the grid it rounds to. *)
Lemma round_double_le_grid (y : Q) (k j : Z) :
  0 < y -> (cexp y <= j)%Z ->
  y <= inject_Z k * 2 ^ j -> round_double y <= inject_Z k * 2 ^ j.
Proof.
  intros Hy He Hle. rewrite round_double_pos_eq by assumption.
  set (e := cexp y) in *.
  pose proof (pow2_pos e) as Hp.
  assert (Hg : inject_Z k * 2 ^ j == inject_Z (k * 2 ^ (j - e)) * 2 ^ e).
  { rewrite inject_Z_mult, pow2_inject by lia.
    rewrite <- Qmult_assoc, <- pow2_add. f_equiv. f_equiv. lia. }
  rewrite Hg in *.
  apply Qmult_le_r; [assumption|]. rewrite <- Zle_Qle.
  apply rne_le. apply Qle_shift_div_r; assumption.
Qed.

Lemma round_double_ge_grid (y : Q) (k j : Z) :
  0 < y -> (cexp y <= j)%Z ->
  inject_Z k * 2 ^ j <= y -> inject_Z k * 2 ^ j <= round_double y.
Proof.
  intros Hy He Hle. rewrite round_double_pos_eq by assumption.
  set (e := cexp y) in *.
  pose proof (pow2_pos e) as Hp.
  assert (Hg : inject_Z k * 2 ^ j == inject_Z (k * 2 ^ (j - e)) * 2 ^ e).
  { rewrite inject_Z_mult, pow2_inject by lia.
    rewrite <- Qmult_assoc, <- pow2_add. f_equiv. f_equiv. lia. }
  rewrite Hg in *.
  apply Qmult_le_r; [assumption|]. rewrite <- Zle_Qle.
  apply rne_ge. apply Qle_shift_div_l; assumption.
Qed.

(** Relative error of rounding in the normal range: half a unit in the
    last of 53 bits. *)
Lemma round_double_rel (x : Q) :
  2 ^ (-1022) <= x ->
  x - x * 2 ^ (-53) <= round_double x /\ round_double x <= x + x * 2 ^ (-53).
Proof.
  intros Hn.
  assert (Hx : 0 < x) by (pose proof (pow2_pos (-1022)); lra).
  rewrite round_double_pos_eq by assumption.
  destruct (ilog2_spec x Hx) as [Hl Hu].
  assert (Hlog : (-1022 <= ilog2 x)%Z).
  { assert (-1022 < ilog2 x + 1)%Z by (apply pow2_lt_inv; lra). lia. }
  rewrite cexp_pos by assumption.
  rewrite Z.max_l by lia.
  set (e := (ilog2 x - 52)%Z).
  pose proof (pow2_pos e) as Hp.
  destruct (rne_near (x / 2 ^ e)) as [Hr1 Hr2].
  assert (Hh : 2 ^ e == 2 * (2 ^ ilog2 x * 2 ^ (-53))).
  { rewrite <- pow2_add, <- pow2_succ. f_equiv. unfold e. lia. }
  assert (Hxe : x / 2 ^ e * 2 ^ e == x) by (field; lra).
  pose proof (pow2_pos (-53)) as Hp53.
  generalize dependent (inject_Z (rne (x / 2 ^ e))).
  generalize dependent (x / 2 ^ e). generalize dependent (2 ^ e).
  generalize dependent (2 ^ ilog2 x). generalize dependent (2 ^ (-53)).
  intros. split; nra.
Qed.


Lemma inject_pos (n : Z) : (0 < n)%Z -> 0 < inject_Z n.
Proof. intros H. change 0 with (inject_Z 0). rewrite <- Zlt_Qlt. assumption. Qed.

Lemma inject_ge1 (n : Z) : (0 < n)%Z -> 1 <= inject_Z n.
Proof. intros H. change 1 with (inject_Z 1). rewrite <- Zle_Qle. lia. Qed.

Lemma inject_lt_pow2 (n e : Z) :
  (0 <= e)%Z -> (n < 2 ^ e)%Z -> inject_Z n < 2 ^ e.
Proof. intros He H. rewrite <- pow2_inject by assumption. rewrite <- Zlt_Qlt. assumption. Qed.

Lemma overflows_false (x : Q) (e : Z) :
  0 <= x -> x <= 2 ^ e -> (e < 1024)%Z -> overflows x = false.
Proof.
  intros H0 Hle He. unfold overflows.
  destruct (Qle_bool (2 ^ 1024) (Qabs x)) eqn:E; [|reflexivity].
  apply Qle_bool_iff in E. rewrite Qabs_pos in E by assumption.
  assert (2 ^ e < 2 ^ 1024) by (apply Qpower_lt_compat_l; [assumption | reflexivity]).
  generalize dependent (2 ^ 1024). generalize dependent (2 ^ e). intros. lra.
Qed.

Lemma truediv_ok (a b : Z) :
  (0 < a < 2 ^ 1023)%Z -> (0 < b < 2 ^ 31)%Z ->
  exists q, truediv a b = inr q /\ 0 < q /\
    q <= inject_Z a / inject_Z b + inject_Z a / inject_Z b * 2 ^ (-53) /\
    ((a <= b)%Z -> q <= 1).
Proof.
  intros Ha Hb. unfold truediv.
  destruct (Z.eqb_spec b 0) as [->|_]; [lia|].
  set (y := inject_Z a / inject_Z b).
  assert (Hb0 : 0 < inject_Z b) by (apply inject_pos; lia).
  assert (Ha1 : 1 <= inject_Z a) by (apply inject_ge1; lia).
  assert (Hb31 : inject_Z b < 2 ^ 31) by (apply inject_lt_pow2; lia).
  assert (Ha1023 : inject_Z a < 2 ^ 1023) by (apply inject_lt_pow2; lia).
  assert (Hyb : y * inject_Z b == inject_Z a) by (unfold y; field; lra).
  assert (Hylo : 2 ^ (-31) <= y).
  { apply Qle_shift_div_l; [assumption|].
    assert (E : 2 ^ (-31) * 2 ^ 31 == 1) by (rewrite <- pow2_add; reflexivity).
    pose proof (pow2_pos (-31)).
    generalize dependent (2 ^ (-31)). generalize dependent (2 ^ 31). intros. nra. }
  assert (Hy0 : 0 < y) by (pose proof (pow2_pos (-31)); lra).
  assert (Hya : y <= inject_Z a).
  { apply Qle_shift_div_r; [assumption|].
    assert (1 <= inject_Z b) by (apply inject_ge1; lia).
    nra. }
  assert (Hnorm : 2 ^ (-1022) <= y).
  { pose proof (pow2_le (-1022) (-31) ltac:(lia)). lra. }
  destruct (round_double_rel y Hnorm) as [Hlo Hhi].
  pose proof (pow2_pos (-53)) as Hp53.
  assert (H53 : 2 ^ (-53) < 1).
  { change 1 with (2 ^ 0). apply Qpower_lt_compat_l; [lia | reflexivity]. }
  assert (Hq0 : 0 < round_double y).
  { generalize dependent (2 ^ (-53)). intros. nra. }
  assert (Hqhi : round_double y <= 2 ^ 1023).
  { rewrite <- (Qmult_1_l (2 ^ 1023)). change 1 with (inject_Z 1) at 1.
    apply round_double_le_grid; [assumption| |].
    - apply cexp_le; [assumption| |lia].
      pose proof (pow2_le 1023 (1023 + 53) ltac:(lia)). lra.
    - change (inject_Z 1) with 1. lra. }
  rewrite (overflows_false _ 1023) by (lra || lia).
  eexists. split; [reflexivity|]. split; [assumption|]. split; [assumption|].
  intros Hab.
  assert (Hy1 : y <= 1).
  { apply Qle_shift_div_r; [assumption|]. rewrite Qmult_1_l. rewrite <- Zle_Qle. assumption. }
  assert (Hr : round_double y <= inject_Z 1 * 2 ^ 0).
  { apply round_double_le_grid; [assumption| |].
    - apply cexp_le; [assumption| |lia].
      pose proof (pow2_lt 0 (0 + 53) ltac:(lia)) as Hp.
      change (2 ^ 0) with 1 in Hp. lra.
    - change (inject_Z 1 * 2 ^ 0) with (1 * 1). lra. }
  change (inject_Z 1 * 2 ^ 0) with (1 * 1) in Hr. lra.
Qed.


Lemma scale_le (n : Z) (r : Q) (K j : Z) :
  (0 < n < 2 ^ 31)%Z -> 0 < r -> (-1074 <= j <= 0)%Z ->
  inject_Z n * r <= inject_Z K * 2 ^ j ->
  inject_Z K * 2 ^ j < 2 ^ (j + 53) ->
  exists m, scale n r = inr m /\ (0 <= m)%Z /\ inject_Z m <= inject_Z K * 2 ^ j.
Proof.
  intros Hn Hr Hj Hle Hlt. unfold scale, float_of_int, mbind, sum_bind.
  assert (Hn0 : 0 < inject_Z n) by (apply inject_pos; lia).
  assert (Hn31 : inject_Z n < 2 ^ 31) by (apply inject_lt_pow2; lia).
  assert (Hc : (cexp (inject_Z n) <= 0)%Z).
  { apply cexp_le; [assumption| |lia].
    pose proof (pow2_lt 31 (0 + 53) ltac:(lia)). lra. }
  pose proof (round_double_le_grid (inject_Z n) n 0 Hn0 Hc) as Hf1.
  pose proof (round_double_ge_grid (inject_Z n) n 0 Hn0 Hc) as Hf2.
  change (2 ^ 0) with 1 in Hf1, Hf2.
  specialize (Hf1 ltac:(lra)). specialize (Hf2 ltac:(lra)).
  set (f := round_double (inject_Z n)) in *.
  rewrite (overflows_false f 31) by (lra || lia).
  set (y := f * r).
  assert (Hy : y == inject_Z n * r) by (unfold y; nra).
  assert (Hy0 : 0 < y) by nra.
  assert (Hcy : (cexp y <= j)%Z) by (apply cexp_le; [assumption | lra | lia]).
  pose proof (round_double_le_grid y K j Hy0 Hcy ltac:(lra)) as Hp1.
  pose proof (round_double_ge_grid y 0 j Hy0 Hcy) as Hp2.
  change (inject_Z 0) with 0 in Hp2. specialize (Hp2 ltac:(lra)).
  rewrite Qmult_0_l in Hp2.
  set (p := round_double y) in *.
  assert (Hov : overflows p = false).
  { apply (overflows_false p (j + 53)); [assumption | lra | lia]. }
  rewrite Hov. eexists. split; [reflexivity|].
  unfold int_of_float.
  assert (E : Qle_bool 0 p = true) by (apply Qle_bool_iff; assumption).
  rewrite E. split.
  - rewrite <- (Qfloor_Z 0). apply Qfloor_resp_le. assumption.
  - pose proof (Qfloor_le p). lra.
Qed.

Lemma scale_within (n B : Z) (r : Q) :
  (0 < n < 2 ^ 31)%Z -> (0 < B)%Z -> 0 < r ->
  ((B < n)%Z ->
   r <= inject_Z B / inject_Z n + inject_Z B / inject_Z n * 2 ^ (-53)) ->
  ((n <= B)%Z -> r <= 1) ->
  exists m, scale n r = inr m /\ (0 <= m <= B)%Z.
Proof.
  intros Hn HB Hr Hbig Hsmall.
  assert (Hn0 : 0 < inject_Z n) by (apply inject_pos; lia).
  assert (Hn31 : inject_Z n < 2 ^ 31) by (apply inject_lt_pow2; lia).
  destruct (Z_lt_le_dec B n) as [Hlt|Hge].
  - specialize (Hbig Hlt).
    assert (HB31 : inject_Z B < 2 ^ 31).
    { apply inject_lt_pow2; lia. }
    assert (HB0 : 0 < inject_Z B) by (apply inject_pos; lia).
    assert (Hhalf : inject_Z (2 * B + 1) * 2 ^ (-1) == inject_Z B + (1 # 2)).
    { rewrite inject_Z_plus, inject_Z_mult. change (2 ^ (-1)) with (1 # 2).
      change (inject_Z 2) with 2. change (inject_Z 1) with 1. ring. }
    assert (H53 : 2 ^ 31 * 2 ^ (-53) <= 1 # 2).
    { rewrite <- pow2_add. change (1 # 2) with (2 ^ (-1)). apply pow2_le. lia. }
    pose proof (pow2_pos (-53)) as Hp53.
    assert (Hprod : inject_Z n * r <= inject_Z B + inject_Z B * 2 ^ (-53)).
    { assert (E : inject_Z n * (inject_Z B / inject_Z n +
                    inject_Z B / inject_Z n * 2 ^ (-53))
                  == inject_Z B + inject_Z B * 2 ^ (-53)) by (field; lra).
      rewrite <- E. apply Qmult_le_l; assumption. }
    destruct (scale_le n r (2 * B + 1) (-1)) as (m & Hm & Hm0 & Hmle);
      [assumption | assumption | lia | | | ].
    + rewrite Hhalf.
      generalize dependent (2 ^ (-53)). generalize dependent (2 ^ 31). intros. nra.
    + rewrite Hhalf. pose proof (pow2_lt 32 (-1 + 53) ltac:(lia)) as H32.
      assert (E32 : 2 ^ 32 == 2 * 2 ^ 31) by (rewrite <- pow2_succ; reflexivity).
      pose proof (pow2_le 0 31 ltac:(lia)) as H1. change (2 ^ 0) with 1 in H1.
      generalize dependent (2 ^ 32). generalize dependent (2 ^ (-1 + 53)).
      generalize dependent (2 ^ 31). intros. lra.
    + exists m. split; [assumption|]. split; [assumption|].
      rewrite Hhalf in Hmle.
      destruct (Z_le_gt_dec m B) as [|Hgt]; [assumption|exfalso].
      assert (Hc : inject_Z (B + 1) <= inject_Z m) by (rewrite <- Zle_Qle; lia).
      rewrite inject_Z_plus in Hc. change (inject_Z 1) with 1 in Hc. lra.
  - specialize (Hsmall Hge).
    destruct (scale_le n r n 0) as (m & Hm & Hm0 & Hmle);
      [assumption | assumption | lia | | | ].
    + change (2 ^ 0) with 1. nra.
    + change (2 ^ 0) with 1. pose proof (pow2_lt 31 (0 + 53) ltac:(lia)). lra.
    + exists m. split; [assumption|]. split; [assumption|].
      change (2 ^ 0) with 1 in Hmle. rewrite Qmult_1_r in Hmle.
      rewrite <- Zle_Qle in Hmle. lia.
Qed.

Lemma truediv_lower (a b : Z) (q : Q) :
  (0 < a)%Z -> (0 < b < 2 ^ 31)%Z -> truediv a b = inr q -> 2 ^ (-32) <= q.
Proof.
  intros Ha Hb. unfold truediv.
  destruct (Z.eqb_spec b 0) as [->|_]; [lia|].
  set (y := inject_Z a / inject_Z b).
  destruct (overflows (round_double y)); [discriminate|]. intros [= <-].
  assert (Hb0 : 0 < inject_Z b) by (apply inject_pos; lia).
  assert (Ha1 : 1 <= inject_Z a) by (apply inject_ge1; lia).
  assert (Hb31 : inject_Z b < 2 ^ 31) by (apply inject_lt_pow2; lia).
  assert (Hylo : 2 ^ (-31) <= y).
  { apply Qle_shift_div_l; [assumption|].
    assert (E : 2 ^ (-31) * 2 ^ 31 == 1) by (rewrite <- pow2_add; reflexivity).
    pose proof (pow2_pos (-31)).
    generalize dependent (2 ^ (-31)). generalize dependent (2 ^ 31). intros. nra. }
  assert (Hnorm : 2 ^ (-1022) <= y).
  { pose proof (pow2_le (-1022) (-31) ltac:(lia)). lra. }
  destruct (round_double_rel y Hnorm) as [Hlo _].
  assert (H53 : 2 ^ (-53) <= 1 # 2).
  { change (1 # 2) with (2 ^ (-1)). apply pow2_le. lia. }
  assert (E32 : 2 ^ (-31) == 2 * 2 ^ (-32)) by (rewrite <- pow2_succ; reflexivity).
  pose proof (pow2_pos (-32)).
  generalize dependent (2 ^ (-53)). generalize dependent (2 ^ (-31)).
  generalize dependent (2 ^ (-32)). intros. nra.
Qed.

(** [int(n * ratio)] is the exact product up to one rounding and one
    truncation. *)
Lemma scale_near (n m : Z) (r : Q) :
  (0 < n < 2 ^ 31)%Z -> 2 ^ (-32) <= r -> scale n r = inr m ->
  inject_Z n * r - inject_Z n * r * 2 ^ (-53) - 1 < inject_Z m /\
  inject_Z m <= inject_Z n * r + inject_Z n * r * 2 ^ (-53).
Proof.
  intros Hn Hr. unfold scale, float_of_int, mbind, sum_bind.
  assert (Hn0 : 0 < inject_Z n) by (apply inject_pos; lia).
  assert (Hn1 : 1 <= inject_Z n) by (apply inject_ge1; lia).
  assert (Hn31 : inject_Z n < 2 ^ 31) by (apply inject_lt_pow2; lia).
  assert (Hc : (cexp (inject_Z n) <= 0)%Z).
  { apply cexp_le; [assumption| |lia].
    pose proof (pow2_lt 31 (0 + 53) ltac:(lia)). lra. }
  pose proof (round_double_le_grid (inject_Z n) n 0 Hn0 Hc) as Hf1.
  pose proof (round_double_ge_grid (inject_Z n) n 0 Hn0 Hc) as Hf2.
  change (2 ^ 0) with 1 in Hf1, Hf2.
  specialize (Hf1 ltac:(lra)). specialize (Hf2 ltac:(lra)).
  set (f := round_double (inject_Z n)) in *.
  rewrite (overflows_false f 31) by (lra || lia).
  set (y := f * r).
  pose proof (pow2_pos (-32)) as Hp32.
  assert (Hy : y == inject_Z n * r) by (unfold y; nra).
  assert (Hylo : 2 ^ (-32) <= y) by nra.
  assert (Hnorm : 2 ^ (-1022) <= y).
  { pose proof (pow2_le (-1022) (-32) ltac:(lia)). lra. }
  destruct (round_double_rel y Hnorm) as [Hlo Hhi].
  set (p := round_double y) in *.
  destruct (overflows p); [discriminate|]. intros [= <-].
  pose proof (pow2_pos (-53)) as Hp53.
  assert (H53 : 2 ^ (-53) < 1).
  { change 1 with (2 ^ 0). apply pow2_lt. lia. }
  assert (Hp0 : 0 <= p).
  { generalize dependent (2 ^ (-53)). intros. nra. }
  unfold int_of_float.
  assert (E : Qle_bool 0 p = true) by (apply Qle_bool_iff; assumption).
  rewrite E.
  pose proof (Qfloor_le p) as Hfl. pose proof (Qlt_floor p) as Hfu.
  rewrite inject_Z_plus in Hfu. change (inject_Z 1) with 1 in Hfu.
  rewrite Hy in Hlo, Hhi.
  split; lra.
Qed.

(** Two sides scaled by one factor keep their proportion up to the two
    truncations. *)
Lemma scaled_aspect (w h nw nh : Z) (r : Q) :
  (0 < w < 2 ^ 26)%Z -> (0 < h < 2 ^ 26)%Z -> 2 ^ (-32) <= r -> r <= 1 ->
  scale w r = inr nw -> scale h r = inr nh ->
  (Z.abs (nw * h - nh * w) <= Z.max w h)%Z.
Proof.
  intros Hw Hh Hr Hr1 Ew Eh.
  assert (L : (2 ^ 26 < 2 ^ 31)%Z) by reflexivity.
  destruct (scale_near w nw r ltac:(lia) Hr Ew) as [A2 A1].
  destruct (scale_near h nh r ltac:(lia) Hr Eh) as [B2 B1].
  assert (Hw0 : 0 < inject_Z w) by (apply inject_pos; lia).
  assert (Hh0 : 0 < inject_Z h) by (apply inject_pos; lia).
  assert (Hw26 : inject_Z w < 2 ^ 26) by (apply inject_lt_pow2; lia).
  assert (Hh26 : inject_Z h < 2 ^ 26) by (apply inject_lt_pow2; lia).
  pose proof (pow2_pos (-32)) as Hp32.
  pose proof (pow2_pos (-53)) as Hp53.
  assert (E52 : 2 ^ 26 * 2 ^ 26 * 2 ^ (-53) == 1 # 2).
  { rewrite <- !pow2_add. reflexivity. }
  pose proof (pow2_pos 26) as Hp26.
  set (W := inject_Z w) in *. set (H := inject_Z h) in *.
  set (u := 2 ^ (-53)) in *.
  assert (HK : 0 < W * H) by nra.
  assert (HK52 : W * H < 2 ^ 26 * 2 ^ 26)
    by (generalize dependent (2 ^ 26); intros; nra).
  assert (Hr0 : 0 < r) by lra.
  assert (HX0 : 0 < W * H * r) by (generalize dependent (W * H); intros; nra).
  assert (HX1 : W * H * r <= W * H) by (generalize dependent (W * H); intros; nra).
  assert (HX : W * H * r * u < 1 # 2).
  { assert (W * H * r * u <= W * H * u)
      by (generalize dependent (W * H * r); generalize dependent (W * H); intros; nra).
    assert (W * H * u < 2 ^ 26 * 2 ^ 26 * u)
      by (generalize dependent (2 ^ 26 * 2 ^ 26); generalize dependent (W * H);
          intros; nra).
    lra. }
  assert (C1 : inject_Z nw * H <= W * H * r + W * H * r * u).
  { assert (inject_Z nw * H <= (W * r + W * r * u) * H) by (apply Qmult_le_r; lra).
    lra. }
  assert (C2 : W * H * r - W * H * r * u - W < inject_Z nh * W).
  { assert ((H * r - H * r * u - 1) * W < inject_Z nh * W) by (apply Qmult_lt_r; lra).
    lra. }
  assert (D1 : inject_Z nh * W <= W * H * r + W * H * r * u).
  { assert (inject_Z nh * W <= (H * r + H * r * u) * W) by (apply Qmult_le_r; lra).
    lra. }
  assert (D2 : W * H * r - W * H * r * u - H < inject_Z nw * H).
  { assert ((W * r - W * r * u - 1) * H < inject_Z nw * H) by (apply Qmult_lt_r; lra).
    lra. }
  assert (F1 : (nw * h - nh * w < w + 1)%Z).
  { rewrite Zlt_Qlt. unfold Z.sub. rewrite !inject_Z_plus, inject_Z_opp, !inject_Z_mult.
    change (inject_Z 1) with 1. fold W H. lra. }
  assert (F2 : (nh * w - nw * h < h + 1)%Z).
  { rewrite Zlt_Qlt. unfold Z.sub. rewrite !inject_Z_plus, inject_Z_opp, !inject_Z_mult.
    change (inject_Z 1) with 1. fold W H. lra. }
  lia.
Qed.

Lemma py_min_spec (a b : Q) :
  py_min a b <= a /\ py_min a b <= b /\ (py_min a b = a \/ py_min a b = b).
Proof.
  unfold py_min. destruct (Qle_bool a b) eqn:E.
  - apply Qle_bool_iff in E. split; [lra|]. split; [assumption|]. left; reflexivity.
  - assert (b < a).
    { apply Qnot_le_lt. intros C. apply Qle_bool_iff in C. congruence. }
    split; [lra|]. split; [lra|]. right; reflexivity.
Qed.

(** With positive bounds that a double can hold and image sides below
    2^31, the computation of lines 46-48 raises nothing, both new sides
    lie within their bounds, and (for sides below 2^26) they keep the
    proportion of the old ones up to the truncations. *)
Lemma scaled_size_within (width height max_width max_height : Z) :
  (0 < width < 2 ^ 31)%Z -> (0 < height < 2 ^ 31)%Z ->
  (0 < max_width < 2 ^ 1023)%Z -> (0 < max_height < 2 ^ 1023)%Z ->
  (max_width < width \/ max_height < height)%Z ->
  exists rw rh new_width new_height,
    truediv max_width width = inr rw /\
    truediv max_height height = inr rh /\
    scale width (py_min rw rh) = inr new_width /\
    scale height (py_min rw rh) = inr new_height /\
    scaled_size width height max_width max_height = inr (new_width, new_height) /\
    (0 <= new_width <= max_width)%Z /\ (0 <= new_height <= max_height)%Z /\
    ((width < 2 ^ 26)%Z -> (height < 2 ^ 26)%Z ->
     (Z.abs (new_width * height - new_height * width) <= Z.max width height)%Z).
Proof.
  intros Hw Hh HW HH Hex. unfold scaled_size, mbind, sum_bind, mret, sum_ret.
  destruct (truediv_ok max_width width HW Hw) as (rw & Erw & Hrw0 & Hrwhi & Hrw1).
  destruct (truediv_ok max_height height HH Hh) as (rh & Erh & Hrh0 & Hrhhi & Hrh1).
  pose proof (truediv_lower max_width width rw ltac:(lia) Hw Erw) as Hrwlo.
  pose proof (truediv_lower max_height height rh ltac:(lia) Hh Erh) as Hrhlo.
  rewrite Erw, Erh. cbv zeta.
  destruct (py_min_spec rw rh) as (Hm1 & Hm2 & Hm3).
  assert (Hr0 : 0 < py_min rw rh) by (destruct Hm3 as [-> | ->]; assumption).
  assert (Hrlo : 2 ^ (-32) <= py_min rw rh)
    by (destruct Hm3 as [-> | ->]; assumption).
  assert (Hr1 : py_min rw rh <= 1).
  { destruct Hex; [specialize (Hrw1 ltac:(lia)) | specialize (Hrh1 ltac:(lia))]; lra. }
  destruct (scale_within width max_width (py_min rw rh)) as (nw & Enw & Hnw);
    [assumption | lia | assumption | intros; lra | intros; assumption |].
  destruct (scale_within height max_height (py_min rw rh)) as (nh & Enh & Hnh);
    [assumption | lia | assumption | intros; lra | intros; assumption |].
  rewrite Enw, Enh. exists rw, rh, nw, nh.
  repeat (split; [first [assumption | reflexivity | lia]|]).
  intros Hw26 Hh26.
  apply (scaled_aspect width height nw nh (py_min rw rh)); (assumption || lia).
Qed.

(** A few values, as [float.as_integer_ratio] gives them in CPython:
    [1600 / 2156], [2156 * (1600 / 2156)] and [0.1 + 0.2]. *)
Example round_double_quotient :
  truediv 1600 2156 = inr (6684377925596283 # 9007199254740992).
Proof. vm_compute. reflexivity. Qed.

Example round_double_product :
  round_double (2156 * (6684377925596283 # 9007199254740992))
  = 7036874417766399 # 4398046511104.
Proof. vm_compute. reflexivity. Qed.

Example fadd_tenths :
  fadd (round_double (1 # 10)) (round_double (2 # 10))
  = 1351079888211149 # 4503599627370496.
Proof. vm_compute. reflexivity. Qed.

(** The rounded product can fall just below the bound it would reach in
    exact arithmetic, and [int] then truncates to one less: a width of 2156
    under a bound of 1600 becomes 1599, where [floor(2156 * (1600 / 2156))]
    is 1600 over the rationals. *)
Example scaled_size_below_exact_floor :
  scaled_size 2156 100 1600 1600 = inr (1599, 74)%Z /\
  Qfloor (2156 * (1600 # 2156)) = 1600%Z.
Proof. split; vm_compute; reflexivity. Qed.

End FloatFacts.

(** ** Paths *)

Section PathFacts.
Local Open Scope string_scope.

Lemma string_length_app (s t : string) :
  String.length (s ++ t) = (String.length s + String.length t)%nat.
Proof. induction s as [|c s IH]; simpl; [reflexivity | rewrite IH; reflexivity]. Qed.

Lemma split_at_app (n : nat) (p : string) :
  fst (split_at n p) ++ snd (split_at n p) = p.
Proof.
  revert p. induction n as [|n IH]; intros p.
  - destruct p; reflexivity.
  - destruct p as [|a p]; [reflexivity|]. simpl.
    specialize (IH p). destruct (split_at n p) as [l r]. simpl in *.
    change (String a (l ++ r) = String a p). f_equal. exact IH.
Qed.

(** [splitext] cuts the path in two and loses nothing. *)
Lemma splitext_app (p : string) : fst (splitext p) ++ snd (splitext p) = p.
Proof.
  unfold splitext.
  destruct ((rfind1 "/" p <? rfind1 "." p)%nat
            && has_name p (rfind1 "/" p) (rfind1 "." p - 1 - rfind1 "/" p)).
  - apply split_at_app.
  - simpl. induction p as [|c p IH]; [reflexivity|].
    change (String c (p ++ "") = String c p). f_equal. exact IH.
Qed.

Lemma suffixed_length (p suffix : string) :
  String.length (fst (splitext p) ++ suffix ++ snd (splitext p))
  = (String.length p + String.length suffix)%nat.
Proof.
  rewrite <- (splitext_app p) at 3.
  rewrite !string_length_app. lia.
Qed.

Lemma enhanced_path_length (p : string) :
  String.length (enhanced_path_of p) = (String.length p + 9)%nat.
Proof.
  unfold enhanced_path_of. pose proof (suffixed_length p "_enhanced") as H.
  destruct (splitext p) as [n e]. exact H.
Qed.

Lemma inverted_path_length (p : string) :
  String.length (inverted_path_of p) = (String.length p + 9)%nat.
Proof.
  unfold inverted_path_of. pose proof (suffixed_length p "_inverted") as H.
  destruct (splitext p) as [n e]. exact H.
Qed.

Lemma enhanced_path_fresh (p : string) : enhanced_path_of p <> p.
Proof. intros E. pose proof (enhanced_path_length p) as H. rewrite E in H. lia. Qed.

Lemma inverted_path_fresh (p : string) : inverted_path_of p <> p.
Proof. intros E. pose proof (inverted_path_length p) as H. rewrite E in H. lia. Qed.

Lemma inverted_path_truthy (p : string) :
  truthy_path (Some (inverted_path_of p)) = true.
Proof.
  unfold truthy_path. destruct (String.eqb_spec (inverted_path_of p) "") as [E|]; [|reflexivity].
  pose proof (inverted_path_length p) as H. rewrite E in H. simpl in H. lia.
Qed.

End PathFacts.

(** ** What a computation may touch *)

Section Frames.
Context `{P : Platform}.

Lemma confined_ret {A} S (a : A) : confined S (mret a).
Proof. intros w q _. reflexivity. Qed.

Lemma confined_call {A} S (r : Exn + A) : confined S (call r).
Proof. intros w q _. reflexivity. Qed.

Lemma confined_bind {A B} S (m : M A) (f : A -> M B) (Q : A -> Prop) :
  confined S m ->
  (forall w a, snd (m w) = inr a -> Q a) ->
  (forall a, Q a -> confined S (f a)) ->
  confined S (m ≫= f).
Proof.
  intros Hm HQ Hf w q Hq. unfold mbind, M_bind.
  specialize (Hm w q Hq). specialize (HQ w).
  destruct (m w) as [w' [e|a]]; simpl in *; [assumption|].
  rewrite (Hf a (HQ a eq_refl) w' q Hq). assumption.
Qed.

Lemma confined_bind' {A B} S (m : M A) (f : A -> M B) :
  confined S m -> (forall a, confined S (f a)) -> confined S (m ≫= f).
Proof.
  intros Hm Hf. apply (confined_bind S m f (fun _ => True)); auto.
Qed.

Lemma confined_total {A} S (f : World -> World * A) :
  (forall w q, ~ S q -> files (fst (f w)) !! q = files w !! q) ->
  confined S (total f).
Proof.
  intros H w q Hq. unfold total. specialize (H w q Hq).
  destruct (f w) as [w' a]. exact H.
Qed.

Lemma confined_try {A} S (body : M A) (h : Exn -> World -> World * A) :
  confined S body ->
  (forall e w q, files (fst (h e w)) !! q = files w !! q) ->
  forall w q, ~ S q -> files (fst (try_except body h w)) !! q = files w !! q.
Proof.
  intros Hb Hh w q Hq. unfold try_except. specialize (Hb w q Hq).
  destruct (body w) as [w' [e|a]]; simpl in *; [|assumption].
  rewrite Hh. assumption.
Qed.

Lemma confined_open S path : confined S (Image_open path).
Proof. intros w q _. unfold Image_open. destruct (files w !! path); reflexivity. Qed.

Lemma confined_save (S : string -> Prop) img path :
  S path -> confined S (Image_save img path).
Proof.
  intros HS w q Hq. unfold Image_save.
  destruct (pil_save img path (files w !! path)) as [f' r]. simpl.
  apply lookup_partial_alter_ne. intros ->. contradiction.
Qed.

Lemma confined_exists S path : confined S (path_exists path).
Proof. intros w q _. reflexivity. Qed.

Lemma confined_remove (S : string -> Prop) path :
  S path -> confined S (os_remove path).
Proof.
  intros HS w q Hq. unfold os_remove.
  destruct (files w !! path); [|reflexivity]. simpl.
  apply lookup_delete_ne. intros ->. contradiction.
Qed.

Lemma confined_ocr S path : confined S (ocr path).
Proof. intros w q _. reflexivity. Qed.

Lemma silent_ret {A} (a : A) : silent (mret a).
Proof. intros w. reflexivity. Qed.

Lemma silent_call {A} (r : Exn + A) : silent (call r).
Proof. intros w. reflexivity. Qed.

Lemma silent_bind {A B} (m : M A) (f : A -> M B) :
  silent m -> (forall a, silent (f a)) -> silent (m ≫= f).
Proof.
  intros Hm Hf w. unfold mbind, M_bind. specialize (Hm w).
  destruct (m w) as [w' [e|a]]; simpl in *; [assumption|].
  rewrite Hf. assumption.
Qed.

Lemma silent_total {A} (f : World -> World * A) :
  (forall w, stdout (fst (f w)) = stdout w) -> silent (total f).
Proof. intros H w. unfold total. specialize (H w). destruct (f w). exact H. Qed.

Lemma silent_try {A} (body : M A) (h : Exn -> World -> World * A) :
  silent body -> (forall e w, stdout (fst (h e w)) = stdout w) ->
  forall w, stdout (fst (try_except body h w)) = stdout w.
Proof.
  intros Hb Hh w. unfold try_except. specialize (Hb w).
  destruct (body w) as [w' [e|a]]; simpl in *; [|assumption].
  rewrite Hh. assumption.
Qed.

Lemma silent_open path : silent (Image_open path).
Proof. intros w. unfold Image_open. destruct (files w !! path); reflexivity. Qed.

Lemma silent_save img path : silent (Image_save img path).
Proof.
  intros w. unfold Image_save.
  destruct (pil_save img path (files w !! path)). reflexivity.
Qed.

End Frames.

(** ** Running the three functions *)

Section Runs.
Context `{P : Platform}.
Local Open Scope string_scope.

Lemma Image_open_eq (path : string) (w : World) :
  Image_open path w = (w, snd (Image_open path w)).
Proof. unfold Image_open. destruct (files w !! path); reflexivity. Qed.

(** The detector leaves the files and standard output alone. *)
Lemma detect_text_color_frame (path : string) (w : World) :
  files (fst (detect_text_color path w)) = files w /\
  stdout (fst (detect_text_color path w)) = stdout w.
Proof.
  unfold detect_text_color, try_except, detect_body, mbind, M_bind, call.
  rewrite Image_open_eq.
  destruct (snd (Image_open path w)) as [e|img]; simpl; [auto|].
  destruct (pil_gray img) as [e|px]; simpl; auto.
Qed.

(** The detector's answer when the grey levels can be read, and when not. *)
Lemma detect_text_color_read (path : string) (w : World) img img_array :
  snd (Image_open path w) = inr img -> pil_gray img = inr img_array ->
  detect_text_color path w =
    (w, (np_sum (drop 128 (histogram img_array))
         <? np_sum (take 128 (histogram img_array)))%Z).
Proof.
  intros Ho Hg.
  unfold detect_text_color, try_except, detect_body, mbind, M_bind, call.
  rewrite Image_open_eq, Ho, Hg. reflexivity.
Qed.

Lemma detect_text_color_raise (path : string) (w : World) e :
  snd (detect_body path w) = inl e ->
  detect_text_color path w =
    (eprint ("Warning: Error detecting text color: " ++ e) w, false).
Proof.
  unfold detect_text_color, try_except, detect_body, mbind, M_bind, call.
  rewrite Image_open_eq.
  destruct (snd (Image_open path w)) as [e'|img]; simpl.
  - intros [= ->]. reflexivity.
  - destruct (pil_gray img) as [e'|px]; simpl; [|discriminate].
    intros [= ->]. reflexivity.
Qed.

(** [preprocess_image] writes under the two derived paths only and prints
    nothing on standard output. *)
Lemma preprocess_body_confined (path : string) (mw mh : Z) :
  confined (fun q => q = enhanced_path_of path \/ q = inverted_path_of path)
    (preprocess_body path mw mh).
Proof.
  unfold preprocess_body.
  apply confined_bind'; [apply confined_open | intros img].
  apply confined_bind'; [apply confined_call | intros img'].
  apply confined_bind'.
  { apply confined_total. intros w q _.
    rewrite (proj1 (detect_text_color_frame path w)). reflexivity. }
  intros b.
  apply confined_bind'; [apply confined_call | intros ie].
  apply confined_bind'; [apply confined_call | intros ii].
  apply confined_bind'; [apply confined_call | intros iie].
  apply confined_bind'; [apply confined_save; left; reflexivity | intros _].
  apply confined_bind'; [apply confined_save; right; reflexivity | intros _].
  apply confined_ret.
Qed.

Lemma preprocess_image_confined (path : string) (mw mh : Z) (w : World) q :
  q <> enhanced_path_of path -> q <> inverted_path_of path ->
  files (fst (preprocess_image path mw mh w)) !! q = files w !! q.
Proof.
  intros H1 H2. unfold preprocess_image.
  apply (confined_try _ _ _ (preprocess_body_confined path mw mh)).
  - reflexivity.
  - intros [?|?]; contradiction.
Qed.

Lemma preprocess_image_silent (path : string) (mw mh : Z) (w : World) :
  stdout (fst (preprocess_image path mw mh w)) = stdout w.
Proof.
  unfold preprocess_image. apply silent_try; [|reflexivity].
  unfold preprocess_body.
  apply silent_bind; [apply silent_open | intros img].
  apply silent_bind; [apply silent_call | intros img'].
  apply silent_bind.
  { apply silent_total. intros w'. apply detect_text_color_frame. }
  intros b.
  apply silent_bind; [apply silent_call | intros ie].
  apply silent_bind; [apply silent_call | intros ii].
  apply silent_bind; [apply silent_call | intros iie].
  apply silent_bind; [apply silent_save | intros _].
  apply silent_bind; [apply silent_save | intros _].
  apply silent_ret.
Qed.

(** What [preprocess_image] hands back: the two derived paths, or the
    source path alone. *)
Lemma preprocess_image_result (path : string) (mw mh : Z) (w : World) :
  (exists b, snd (preprocess_image path mw mh w)
             = (enhanced_path_of path, Some (inverted_path_of path), b)) \/
  snd (preprocess_image path mw mh w) = (path, None, false).
Proof.
  unfold preprocess_image, try_except, preprocess_body, mbind, M_bind, call, total.
  rewrite Image_open_eq.
  destruct (snd (Image_open path w)) as [e|img]; [right; reflexivity|].
  destruct (resize_if_needed img mw mh) as [e|img']; [right; reflexivity|].
  destruct (detect_text_color path w) as [wd b].
  destruct (pil_contrast img') as [e|ie]; [right; reflexivity|].
  destruct (pil_invert img') as [e|ii]; [right; reflexivity|].
  destruct (pil_contrast ii) as [e|iie]; [right; reflexivity|].
  destruct (Image_save ie (enhanced_path_of path) wd) as [w1 [e|[]]];
    [right; reflexivity|].
  destruct (Image_save iie (inverted_path_of path) w1) as [w2 [e|[]]];
    [right; reflexivity|].
  left. exists b. reflexivity.
Qed.

(** The run of [preprocess_image] when no step raises. *)
Lemma preprocess_image_success (path : string) (mw mh : Z) (w : World)
    img img' ie ii iie w1 w2 :
  snd (Image_open path w) = inr img ->
  resize_if_needed img mw mh = inr img' ->
  pil_contrast img' = inr ie ->
  pil_invert img' = inr ii ->
  pil_contrast ii = inr iie ->
  Image_save ie (enhanced_path_of path) (fst (detect_text_color path w))
    = (w1, inr ()) ->
  Image_save iie (inverted_path_of path) w1 = (w2, inr ()) ->
  preprocess_image path mw mh w =
    (w2, (enhanced_path_of path, Some (inverted_path_of path),
          snd (detect_text_color path w))).
Proof.
  intros Ho Hr Hc Hi Hci Hs1 Hs2.
  unfold preprocess_image, try_except, preprocess_body, mbind, M_bind, call, total.
  rewrite Image_open_eq, Ho, Hr.
  destruct (detect_text_color path w) as [wd b]. simpl in Hs1.
  rewrite Hc, Hi, Hci, Hs1, Hs2. reflexivity.
Qed.

(** The run of [preprocess_image] when a step raises. *)
Lemma preprocess_image_failure (path : string) (mw mh : Z) (w : World) e :
  PreprocessFails path mw mh w e ->
  exists w',
    preprocess_image path mw mh w =
      (eprint (dumps (error_payload ("Error preprocessing image: " ++ e))) w',
       (path, None, false)) /\
    stdout w' = stdout w.
Proof.
  intros H.
  unfold preprocess_image, try_except, preprocess_body, mbind, M_bind, call, total.
  rewrite Image_open_eq.
  pose proof (detect_text_color_frame path w) as [Hf Hd].
  destruct H as [Ho | img Ho Hr | img img' Ho Hr Hc | img img' ie Ho Hr Hc Hi
                | img img' ie ii Ho Hr Hc Hi Hci
                | img img' ie ii iie Ho Hr Hc Hi Hci Hs
                | img img' ie ii iie w1 Ho Hr Hc Hi Hci Hs1 Hs2];
    rewrite Ho; try rewrite Hr;
    try (destruct (detect_text_color path w) as [wd b]; simpl in *);
    try rewrite Hc; try rewrite Hi; try rewrite Hci.
  - exists w. split; reflexivity.
  - exists w. split; reflexivity.
  - exists wd. split; [reflexivity | assumption].
  - exists wd. split; [reflexivity | assumption].
  - exists wd. split; [reflexivity | assumption].
  - unfold Image_save. rewrite Hf.
    destruct (pil_save ie (enhanced_path_of path)
                (files w !! enhanced_path_of path)) as [f' r].
    simpl in Hs. subst r. eexists. split; [reflexivity | assumption].
  - rewrite Hs1.
    pose proof (silent_save ie (enhanced_path_of path) wd) as Hq.
    rewrite Hs1 in Hq. simpl in Hq.
    unfold Image_save.
    destruct (pil_save iie (inverted_path_of path)
                (files w1 !! inverted_path_of path)) as [f' r].
    simpl in Hs2. subst r. eexists. split; [reflexivity | simpl; congruence].
Qed.

(** Removing the temporaries never raises: each [os.remove] is behind its
    [os.path.exists]. *)
Lemma never_raises_ret {A} (a : A) : never_raises (mret a).
Proof. intros w. exists a. reflexivity. Qed.

Lemma never_raises_bind {A B} (m : M A) (f : A -> M B) :
  never_raises m -> (forall a, never_raises (f a)) -> never_raises (m ≫= f).
Proof.
  intros Hm Hf w. unfold mbind, M_bind.
  destruct (Hm w) as [a Ha].
  destruct (m w) as [w' r]. simpl in Ha. subst r.
  apply (Hf a).
Qed.

Lemma remove_if_exists_never_raises (p : string) : never_raises (remove_if_exists p).
Proof.
  intros w. exists (). unfold remove_if_exists, mbind, M_bind, path_exists, os_remove.
  case_bool_decide as H.
  - destruct H as [f ->]. reflexivity.
  - reflexivity.
Qed.

Lemma remove_temporaries_never_raises (path ep : string) (ip : option string) :
  never_raises (remove_temporaries path ep ip).
Proof.
  unfold remove_temporaries.
  apply never_raises_bind.
  - destruct (negb (String.eqb ep path));
      [apply remove_if_exists_never_raises | apply never_raises_ret].
  - intros _. destruct ip as [p|]; [|apply never_raises_ret].
    destruct (truthy_path (Some p));
      [apply remove_if_exists_never_raises | apply never_raises_ret].
Qed.

Lemma remove_temporaries_returns (path ep : string) (ip : option string) (w : World) :
  snd (remove_temporaries path ep ip w) = inr ().
Proof.
  destruct (remove_temporaries_never_raises path ep ip w) as [[] H]. exact H.
Qed.

Lemma remove_if_exists_confined (S : string -> Prop) (p : string) :
  S p -> confined S (remove_if_exists p).
Proof.
  intros HS. unfold remove_if_exists.
  apply confined_bind'; [apply confined_exists|].
  intros [|]; [apply confined_remove; assumption | apply confined_ret].
Qed.

Lemma remove_temporaries_confined (path : string) (ip : option string) ep :
  (ep = path \/ ep = enhanced_path_of path) ->
  (ip = None \/ ip = Some (inverted_path_of path)) ->
  confined (fun q => q = enhanced_path_of path \/ q = inverted_path_of path)
    (remove_temporaries path ep ip).
Proof.
  intros Hep Hip. unfold remove_temporaries.
  apply confined_bind'.
  - destruct (String.eqb_spec ep path) as [E|N]; simpl; [apply confined_ret|].
    apply remove_if_exists_confined. destruct Hep; [contradiction | left; assumption].
  - intros _. destruct Hip as [-> | ->]; [apply confined_ret|].
    rewrite inverted_path_truthy.
    apply remove_if_exists_confined. right; reflexivity.
Qed.

Lemma ocr_if_present_eq (ip : option string) (w : World) :
  ocr_if_present ip w = (w, snd (ocr_if_present ip w)).
Proof.
  unfold ocr_if_present. destruct ip as [p|]; [|reflexivity].
  destruct (truthy_path (Some p)); reflexivity.
Qed.

(** The run of [process_image] when both engine calls return. *)
Lemma process_image_run (path : string) (mw mh : Z) (w w1 : World)
    ep ip bias rE rI :
  preprocess_image path mw mh w = (w1, (ep, ip, bias)) ->
  paddle_init = inr () ->
  paddle_ocr (files w1) ep = inr rE ->
  snd (ocr_if_present ip w1) = inr rI ->
  process_image path mw mh w =
    print (dumps (JArr (json_result (select_result rE rI bias))))
      (fst (remove_temporaries path ep ip w1)).
Proof.
  intros Hpre Hinit HE HI.
  unfold process_image, try_except, process_body, mbind, M_bind, total, call, ocr.
  rewrite Hpre, Hinit, HE, ocr_if_present_eq, HI.
  pose proof (remove_temporaries_returns path ep ip w1) as Hr.
  destruct (remove_temporaries path ep ip w1) as [w2 r]. simpl in Hr. subst r.
  reflexivity.
Qed.

(** The run of [process_image] when the engine cannot be built or one of
    its calls raises: the handler of line 146 prints the error payload, and
    nothing after the raising call is run. *)
Lemma process_image_init_raises (path : string) (mw mh : Z) (w w1 : World)
    ep ip bias e :
  preprocess_image path mw mh w = (w1, (ep, ip, bias)) ->
  paddle_init = inl e ->
  process_image path mw mh w = print (dumps (error_payload e)) w1.
Proof.
  intros Hpre Hinit.
  unfold process_image, try_except, process_body, mbind, M_bind, total, call.
  rewrite Hpre, Hinit. reflexivity.
Qed.

Lemma process_image_enhanced_raises (path : string) (mw mh : Z) (w w1 : World)
    ep ip bias e :
  preprocess_image path mw mh w = (w1, (ep, ip, bias)) ->
  paddle_init = inr () ->
  paddle_ocr (files w1) ep = inl e ->
  process_image path mw mh w = print (dumps (error_payload e)) w1.
Proof.
  intros Hpre Hinit HE.
  unfold process_image, try_except, process_body, mbind, M_bind, total, call, ocr.
  rewrite Hpre, Hinit, HE. reflexivity.
Qed.

Lemma process_image_inverted_raises (path : string) (mw mh : Z) (w w1 : World)
    ep ip bias rE e :
  preprocess_image path mw mh w = (w1, (ep, ip, bias)) ->
  paddle_init = inr () ->
  paddle_ocr (files w1) ep = inr rE ->
  snd (ocr_if_present ip w1) = inl e ->
  process_image path mw mh w = print (dumps (error_payload e)) w1.
Proof.
  intros Hpre Hinit HE HI.
  unfold process_image, try_except, process_body, mbind, M_bind, total, call, ocr.
  rewrite Hpre, Hinit, HE, ocr_if_present_eq, HI. reflexivity.
Qed.

(** [process_image] changes no file other than the two derived ones. *)
Lemma process_body_confined (path : string) (mw mh : Z) :
  confined (fun q => q = enhanced_path_of path \/ q = inverted_path_of path)
    (process_body path mw mh).
Proof.
  unfold process_body.
  apply (confined_bind _ _ _ (fun r =>
    (exists b, r = (enhanced_path_of path, Some (inverted_path_of path), b))
    \/ r = (path, None, false))).
  - apply confined_total. intros w q Hq.
    apply preprocess_image_confined; intros ->; apply Hq; auto.
  - intros w r. unfold total.
    pose proof (preprocess_image_result path mw mh w) as H.
    destruct (preprocess_image path mw mh w) as [w' r']. simpl in *.
    intros [= <-]. exact H.
  - intros [[ep ip] bias] Hr.
    assert (Hep : ep = path \/ ep = enhanced_path_of path).
    { destruct Hr as [[b [= -> -> ->]] | [= -> -> ->]]; auto. }
    assert (Hip : ip = None \/ ip = Some (inverted_path_of path)).
    { destruct Hr as [[b [= -> -> ->]] | [= -> -> ->]]; auto. }
    apply confined_bind'; [apply confined_call | intros _].
    apply confined_bind'; [apply confined_ocr | intros rE].
    apply confined_bind'.
    { intros w q _. rewrite ocr_if_present_eq. reflexivity. }
    intros rI.
    apply confined_bind'; [apply remove_temporaries_confined; assumption | intros _].
    apply confined_total. reflexivity.
Qed.

Lemma process_image_confined (path : string) (mw mh : Z) (w : World) q :
  q <> enhanced_path_of path -> q <> inverted_path_of path ->
  files (process_image path mw mh w) !! q = files w !! q.
Proof.
  intros H1 H2. unfold process_image.
  apply (confined_try _ _ _ (process_body_confined path mw mh)).
  - reflexivity.
  - intros [?|?]; contradiction.
Qed.

End Runs.

(** ** The selection rule *)

Section Selection.

Lemma json_result_batch (r : OcrResult) :
  json_result r = map record_of (batch_of r).
Proof. destruct r as [[|[[|l ls]|] pages]|]; reflexivity. Qed.

(** The truthiness tests of lines 99-126 compute the rule of the
    specification on the detections of the two results. *)
Lemma select_result_batch (rE rI : OcrResult) (invert_needed : bool) :
  batch_of (select_result rE rI invert_needed)
  = arbiter_rule (batch_of rE) (batch_of rI) (bias_of invert_needed).
Proof.
  destruct rE as [[|[[|l ls]|] pages]|]; destruct rI as [[|[[|l' ls']|] pages']|];
    try reflexivity.
  unfold select_result, arbiter_rule, conf, count, item0, truthy, truthy_page, batch_of.
  cbn [andb orb negb List.length Nat.eqb].
  assert (H0 : forall n, (0 <? S n)%nat = true) by reflexivity.
  rewrite !H0.
  destruct invert_needed; cbn [bias_of is_light andb].
  - reflexivity.
  - destruct (S (List.length ls) <? S (List.length ls'))%nat; [reflexivity|].
    destruct (S (List.length ls') <? S (List.length ls))%nat; [reflexivity|].
    destruct (fgt _ _); reflexivity.
Qed.

Lemma arbiter_rule_bias_first (batchE batchI : list Line) :
  List.length batchE = 5%nat -> List.length batchI = 3%nat ->
  arbiter_rule batchE batchI LightTextOnDark = batchI.
Proof.
  intros HE HI. unfold arbiter_rule. rewrite HE, HI. reflexivity.
Qed.

End Selection.

(** ** The histogram *)

Section Histogram.

Lemma histogram_length (px : list byte) : List.length (histogram px) = 256%nat.
Proof. unfold histogram. rewrite length_map, length_seq. reflexivity. Qed.

Lemma histogram_bucket (px : list byte) (i : nat) :
  (i < 256)%nat -> nth_error (histogram px) i = Some (count_level i px).
Proof.
  intros Hi. unfold histogram.
  rewrite nth_error_map, nth_error_seq.
  destruct (Nat.ltb_spec i 256) as [_|]; [reflexivity | lia].
Qed.

Lemma np_sum_indicator (v : N) (lo n : nat) :
  np_sum (map (fun i => if N.eqb v (N.of_nat i) then 1 else 0)%Z (seq lo n))
  = (if (N.of_nat lo <=? v)%N && (v <? N.of_nat (lo + n))%N then 1 else 0)%Z.
Proof.
  revert lo. induction n as [|n IH]; intros lo.
  - simpl. replace (lo + 0)%nat with lo by lia.
    destruct (N.leb_spec (N.of_nat lo) v), (N.ltb_spec v (N.of_nat lo));
      simpl; (reflexivity || lia).
  - cbn [seq map np_sum fold_right]. fold (np_sum
      (map (fun i => if N.eqb v (N.of_nat i) then 1 else 0)%Z (seq (S lo) n))).
    rewrite IH.
    destruct (N.eqb_spec v (N.of_nat lo)), (N.leb_spec (N.of_nat lo) v),
      (N.ltb_spec v (N.of_nat (lo + S n))), (N.leb_spec (N.of_nat (S lo)) v),
      (N.ltb_spec v (N.of_nat (S lo + n))); simpl; (reflexivity || lia).
Qed.

Lemma np_sum_add {A} (f g : A -> Z) (l : list A) :
  np_sum (map (fun i => f i + g i)%Z l) = (np_sum (map f l) + np_sum (map g l))%Z.
Proof.
  induction l as [|a l IH]; [reflexivity|].
  cbn [map np_sum fold_right]. fold (np_sum (map (fun i => f i + g i)%Z l)).
  fold (np_sum (map f l)). fold (np_sum (map g l)). lia.
Qed.

(** Summing consecutive buckets counts the pixels of that range of levels. *)
Lemma np_sum_buckets (px : list byte) (lo n : nat) :
  np_sum (map (fun i => count_level i px) (seq lo n))
  = pixels_where (fun v => (N.of_nat lo <=? v)%N && (v <? N.of_nat (lo + n))%N) px.
Proof.
  induction px as [|b px IH].
  - change (np_sum (map (fun _ : nat => 0%Z) (seq lo n)) = 0%Z).
    induction (seq lo n) as [|a l IHl]; [reflexivity|].
    change (0 + np_sum (map (fun _ : nat => 0%Z) l) = 0)%Z.
    rewrite IHl. reflexivity.
  - transitivity (np_sum (map (fun i =>
        (if N.eqb (Byte.to_N b) (N.of_nat i) then 1 else 0) + count_level i px)%Z
        (seq lo n))).
    { f_equal. apply map_ext. intros i. unfold count_level. cbn [List.filter].
      destruct (N.eqb (Byte.to_N b) (N.of_nat i)); cbn [List.length]; lia. }
    rewrite np_sum_add, IH, np_sum_indicator.
    unfold pixels_where. cbn [List.filter].
    destruct ((N.of_nat lo <=? Byte.to_N b)%N && (Byte.to_N b <? N.of_nat (lo + n))%N);
      cbn [List.length]; lia.
Qed.

Lemma pixels_where_ext (p q : N -> bool) (px : list byte) :
  (forall b, p (Byte.to_N b) = q (Byte.to_N b)) ->
  pixels_where p px = pixels_where q px.
Proof.
  intros H. unfold pixels_where. f_equal. f_equal.
  apply List.filter_ext. intros b. apply H.
Qed.

Lemma dark_mass_eq (px : list byte) :
  np_sum (take 128 (histogram px)) = pixels_where (fun v => (v <? 128)%N) px.
Proof.
  unfold histogram.
  replace (take 128 (map (fun i => count_level i px) (seq 0 256)))
    with (map (fun i => count_level i px) (seq 0 128)) by reflexivity.
  rewrite np_sum_buckets. apply pixels_where_ext. intros b.
  change (N.of_nat 0) with 0%N. change (N.of_nat (0 + 128)) with 128%N.
  destruct (N.leb_spec 0 (Byte.to_N b)); [reflexivity | lia].
Qed.

Lemma light_mass_eq (px : list byte) :
  np_sum (drop 128 (histogram px)) = pixels_where (fun v => (128 <=? v)%N) px.
Proof.
  unfold histogram.
  replace (drop 128 (map (fun i => count_level i px) (seq 0 256)))
    with (map (fun i => count_level i px) (seq 128 128)) by reflexivity.
  rewrite np_sum_buckets. apply pixels_where_ext. intros b.
  change (N.of_nat 128) with 128%N.
  change (N.of_nat (128 + 128)) with 256%N.
  pose proof (Byte.to_N_bounded b).
  destruct (N.ltb_spec (Byte.to_N b) 256); [|lia].
  apply andb_true_r.
Qed.

End Histogram.

(** * The claims *)

Section Claims.
Context `{P : Platform}.
Local Open Scope string_scope.

Lemma remove_temporaries_silent (path ep : string) (ip : option string) (w : World) :
  stdout (fst (remove_temporaries path ep ip w)) = stdout w.
Proof.
  assert (Hr : forall p, silent (remove_if_exists p)).
  { intros p w'. unfold remove_if_exists, mbind, M_bind, path_exists, os_remove.
    case_bool_decide as H; [destruct H as [f ->]|]; reflexivity. }
  unfold remove_temporaries. apply silent_bind.
  - destruct (negb (String.eqb ep path)); [apply Hr | apply silent_ret].
  - intros _. destruct ip as [p|]; [|apply silent_ret].
    destruct (truthy_path (Some p)); [apply Hr | apply silent_ret].
Qed.

(** What a run that recognises both renderings prints. *)
Lemma process_image_stdout (path : string) (mw mh : Z) (w w1 : World)
    ep ip bias rE rI :
  preprocess_image path mw mh w = (w1, (ep, ip, bias)) ->
  paddle_init = inr () ->
  paddle_ocr (files w1) ep = inr rE ->
  snd (ocr_if_present ip w1) = inr rI ->
  stdout (process_image path mw mh w) =
    (stdout w ++ [dumps (JArr (map record_of
      (arbiter_rule (batch_of rE) (batch_of rI) (bias_of bias))))])%list.
Proof.
  intros Hpre Hinit HE HI.
  rewrite (process_image_run path mw mh w w1 ep ip bias rE rI) by assumption.
  cbn [print stdout]. rewrite remove_temporaries_silent.
  pose proof (preprocess_image_silent path mw mh w) as Hs. rewrite Hpre in Hs.
  simpl in Hs. rewrite Hs, json_result_batch, select_result_batch. reflexivity.
Qed.

(** C1. When both renderings were recognised, the batch that is selected
    and printed is the one the precedence of the specification names:
    enhanced if only it has detections, inverted if only it has, and with
    both populated the inverted one under a light-on-dark bias, else the
    larger count, else the larger summed confidence in favour of the
    inverted one, else the enhanced one.  With five detections against
    three and a light-on-dark bias the inverted batch wins. *)
Theorem arbiter_selection_precedence (path : string) (mw mh : Z) (w w1 : World)
    (ep ip : string) (bias : bool) (rE rI : OcrResult) :
  preprocess_image path mw mh w = (w1, (ep, Some ip, bias)) ->
  ip <> "" ->
  paddle_init = inr () ->
  paddle_ocr (files w1) ep = inr rE ->
  paddle_ocr (files w1) ip = inr rI ->
  batch_of (select_result rE rI bias)
    = arbiter_rule (batch_of rE) (batch_of rI) (bias_of bias) /\
  stdout (process_image path mw mh w) =
    (stdout w ++ [dumps (JArr (map record_of
      (arbiter_rule (batch_of rE) (batch_of rI) (bias_of bias))))])%list /\
  (List.length (batch_of rE) = 5%nat -> List.length (batch_of rI) = 3%nat ->
   bias_of bias = LightTextOnDark ->
   batch_of (select_result rE rI bias) = batch_of rI).
Proof.
  intros Hpre Hip Hinit HE HI.
  split; [apply select_result_batch|]. split.
  - apply (process_image_stdout path mw mh w w1 ep (Some ip) bias rE rI);
      try assumption.
    unfold ocr_if_present, truthy_path.
    destruct (String.eqb_spec ip "") as [E|_]; [contradiction|].
    simpl. assumption.
  - intros H5 H3 Hb. rewrite select_result_batch, Hb.
    apply arbiter_rule_bias_first; assumption.
Qed.

(** C9. When neither recognition result has detections the selected batch
    is empty and the run prints the empty JSON array on standard output. *)
Theorem empty_batches_print_empty_array (path : string) (mw mh : Z)
    (w w1 : World) (ep : string) (ip : option string) (bias : bool)
    (rE rI : OcrResult) :
  preprocess_image path mw mh w = (w1, (ep, ip, bias)) ->
  paddle_init = inr () ->
  paddle_ocr (files w1) ep = inr rE ->
  snd (ocr_if_present ip w1) = inr rI ->
  batch_of rE = [] -> batch_of rI = [] ->
  batch_of (select_result rE rI bias) = [] /\
  process_image path mw mh w =
    print "[]" (fst (remove_temporaries path ep ip w1)) /\
  stdout (process_image path mw mh w) = (stdout w ++ ["[]"])%list.
Proof.
  intros Hpre Hinit HE HI HbE HbI.
  assert (Hsel : batch_of (select_result rE rI bias) = []).
  { rewrite select_result_batch, HbE, HbI. reflexivity. }
  split; [assumption|]. split.
  - rewrite (process_image_run path mw mh w w1 ep ip bias rE rI) by assumption.
    rewrite json_result_batch, Hsel. reflexivity.
  - rewrite (process_image_stdout path mw mh w w1 ep ip bias rE rI) by assumption.
    rewrite HbE, HbI. reflexivity.
Qed.

(** C4. For an image the detector can read, the histogram has 256 buckets,
    bucket [i] holding the number of pixels of grey level [i]; buckets
    0-127 sum to the number of dark pixels and buckets 128-255 to the number
    of light ones; the answer is light-text-on-dark exactly when the light
    mass is strictly below the dark mass, and dark-text-on-light when the
    two are equal. *)
Theorem detect_text_color_histogram (path : string) (w : World)
    (img : Image) (img_array : list byte) :
  snd (Image_open path w) = inr img ->
  pil_gray img = inr img_array ->
  let hist := histogram img_array in
  let dark_mass := np_sum (take 128 hist) in
  let light_mass := np_sum (drop 128 hist) in
  List.length hist = 256%nat /\
  (forall i, (i < 256)%nat ->
     nth_error hist i = Some (pixels_where (fun v => N.eqb v (N.of_nat i)) img_array)) /\
  dark_mass = pixels_where (fun v => (v <? 128)%N) img_array /\
  light_mass = pixels_where (fun v => (128 <=? v)%N) img_array /\
  detect_text_color path w = (w, (light_mass <? dark_mass)%Z) /\
  (bias_of (snd (detect_text_color path w)) = LightTextOnDark
     <-> (light_mass < dark_mass)%Z) /\
  (light_mass = dark_mass ->
     bias_of (snd (detect_text_color path w)) = DarkTextOnLight).
Proof.
  intros Ho Hg hist dark_mass light_mass.
  assert (Hd : detect_text_color path w = (w, (light_mass <? dark_mass)%Z)).
  { apply (detect_text_color_read path w img img_array); assumption. }
  split; [apply histogram_length|].
  split; [intros i Hi; apply (histogram_bucket img_array i Hi)|].
  split; [apply dark_mass_eq|].
  split; [apply light_mass_eq|].
  split; [assumption|].
  rewrite Hd. cbn [snd]. split.
  - destruct (Z.ltb_spec light_mass dark_mass); simpl; split;
      (congruence || lia || discriminate || reflexivity).
  - intros E. rewrite E, Z.ltb_irrefl. reflexivity.
Qed.

(** C5. When the grey-level analysis raises, the detector catches the
    error, answers dark-text-on-light, and writes one warning on the
    diagnostic stream, leaving standard output and the files as they were;
    the generator goes on, and if none of its own steps raises it hands
    back both renderings with that answer. *)
Theorem detect_text_color_recovers (path : string) (w : World) (e : Exn) :
  snd (detect_body path w) = inl e ->
  detect_text_color path w =
    (eprint ("Warning: Error detecting text color: " ++ e) w, false) /\
  bias_of (snd (detect_text_color path w)) = DarkTextOnLight /\
  stdout (fst (detect_text_color path w)) = stdout w /\
  stderr (fst (detect_text_color path w)) =
    (stderr w ++ [("Warning: Error detecting text color: " ++ e)%string])%list /\
  files (fst (detect_text_color path w)) = files w /\
  (forall mw mh img img' ie ii iie w1 w2,
     snd (Image_open path w) = inr img ->
     resize_if_needed img mw mh = inr img' ->
     pil_contrast img' = inr ie ->
     pil_invert img' = inr ii ->
     pil_contrast ii = inr iie ->
     Image_save ie (enhanced_path_of path)
       (eprint ("Warning: Error detecting text color: " ++ e) w) = (w1, inr ()) ->
     Image_save iie (inverted_path_of path) w1 = (w2, inr ()) ->
     preprocess_image path mw mh w =
       (w2, (enhanced_path_of path, Some (inverted_path_of path), false)) /\
     stdout w2 = stdout w).
Proof.
  intros He. pose proof (detect_text_color_raise path w e He) as Hd.
  split; [assumption|]. rewrite Hd. cbn [fst snd eprint stdout stderr files bias_of].
  repeat (split; [reflexivity|]).
  intros mw mh img img' ie ii iie w1 w2 Ho Hr Hc Hi Hci Hs1 Hs2.
  pose proof (preprocess_image_success path mw mh w img img' ie ii iie w1 w2
                Ho Hr Hc Hi Hci) as Hp.
  rewrite Hd in Hp. cbn [fst snd] in Hp. specialize (Hp Hs1 Hs2).
  split; [assumption|].
  pose proof (preprocess_image_silent path mw mh w) as Hq.
  rewrite Hp in Hq. exact Hq.
Qed.

(** C6. When a step of the generator raises (load, resize, enhance,
    invert, save), it hands back the source path as the enhanced rendering,
    no inverted rendering and the dark-text-on-light answer; the
    description of the failure is the last line of the diagnostic stream
    and standard output is left as it was. *)
Theorem preprocess_image_degrades (path : string) (mw mh : Z) (w : World) (e : Exn) :
  PreprocessFails path mw mh w e ->
  snd (preprocess_image path mw mh w) = (path, None, false) /\
  bias_of false = DarkTextOnLight /\
  stdout (fst (preprocess_image path mw mh w)) = stdout w /\
  last (stderr (fst (preprocess_image path mw mh w))) =
    Some (dumps (error_payload ("Error preprocessing image: " ++ e))) /\
  files (fst (preprocess_image path mw mh w)) !! path = files w !! path.
Proof.
  intros H. destruct (preprocess_image_failure path mw mh w e H) as (w' & Hp & Hs).
  split; [rewrite Hp; reflexivity|]. split; [reflexivity|].
  split; [rewrite Hp; exact Hs|]. split.
  - rewrite Hp. cbn [fst eprint stderr]. apply last_snoc.
  - apply preprocess_image_confined;
      [intros E; symmetry in E; exact (enhanced_path_fresh path E)
      |intros E; symmetry in E; exact (inverted_path_fresh path E)].
Qed.

(** C7, as the code has it.  An image within both bounds is not resampled:
    the image that goes on to enhancement is the loaded one.  When a side
    exceeds its bound, with sides below [2^31] and positive bounds below
    [2^1023], the image is resampled to [int(width * ratio)] by
    [int(height * ratio)] for the one factor
    [ratio = min(max_width / width, max_height / height)], all in double
    precision; both new sides are within their bounds and, for sides
    below [2^26], keep the proportion of the old ones up to the two
    truncations. *)
Theorem resize_policy (img : Image) (width height max_width max_height : Z) :
  img_size img = (width, height) ->
  ((width <= max_width)%Z -> (height <= max_height)%Z ->
   resize_if_needed img max_width max_height = inr img) /\
  ((0 < width < 2 ^ 31)%Z -> (0 < height < 2 ^ 31)%Z ->
   (0 < max_width < 2 ^ 1023)%Z -> (0 < max_height < 2 ^ 1023)%Z ->
   (max_width < width \/ max_height < height)%Z ->
   exists rw rh new_width new_height,
     truediv max_width width = inr rw /\
     truediv max_height height = inr rh /\
     scale width (py_min rw rh) = inr new_width /\
     scale height (py_min rw rh) = inr new_height /\
     resize_if_needed img max_width max_height
       = pil_resize img (new_width, new_height) /\
     (0 <= new_width <= max_width)%Z /\ (0 <= new_height <= max_height)%Z /\
     ((width < 2 ^ 26)%Z -> (height < 2 ^ 26)%Z ->
      (Z.abs (new_width * height - new_height * width) <= Z.max width height)%Z)).
Proof.
  intros Hsize. unfold resize_if_needed. rewrite Hsize. split.
  - intros Hw Hh.
    destruct (Z.ltb_spec max_width width); [lia|].
    destruct (Z.ltb_spec max_height height); [lia|]. reflexivity.
  - intros Hw Hh HW HH Hex.
    destruct (scaled_size_within width height max_width max_height Hw Hh HW HH Hex)
      as (rw & rh & nw & nh & H1 & H2 & H3 & H4 & H5 & H6 & H7 & H8).
    exists rw, rh, nw, nh. repeat (split; [assumption || lia|]).
    split; [|split; [lia | split; [lia | assumption]]].
    assert (Hc : ((max_width <? width)%Z || (max_height <? height)%Z) = true).
    { destruct Hex as [Hlt|Hlt]; apply Z.ltb_lt in Hlt; rewrite Hlt;
        [reflexivity | apply orb_true_r]. }
    rewrite Hc, H5. reflexivity.
Qed.

(** C8. With no image path the program prints exactly the one-line error
    array and exits with status 1; with a path it exits with status 0
    whatever the other arguments are, and a bound that does not parse stays
    at 1600 without any message. *)
Theorem main_argument_handling (w : World) :
  (forall argv, (List.length argv < 2)%nat ->
     main argv w = (print (dq "[{'error': 'No image path provided'}]") w, 1%Z)) /\
  (forall argv, (2 <= List.length argv)%nat -> snd (main argv w) = 0%Z) /\
  (forall prog path a rest, py_int a = None ->
     main (prog :: path :: a :: rest) w
     = (process_image path 1600 (bound_from (rest !! 0%nat) 1600) w, 0%Z)) /\
  (forall prog path a b rest, py_int b = None ->
     main (prog :: path :: a :: b :: rest) w
     = (process_image path (bound_from (Some a) 1600) 1600 w, 0%Z)).
Proof.
  split; [|split; [|split]].
  - intros argv H. unfold main.
    destruct (Nat.ltb_spec (List.length argv) 2); [reflexivity | lia].
  - intros argv H. unfold main.
    destruct (Nat.ltb_spec (List.length argv) 2); [lia | reflexivity].
  - intros prog path a rest Ha. unfold main. cbn [List.length Nat.ltb Nat.leb nth].
    cbn [lookup list_lookup]. unfold bound_from at 1. rewrite Ha.
    destruct rest; reflexivity.
  - intros prog path a b rest Hb. unfold main. cbn [List.length Nat.ltb Nat.leb nth].
    cbn [lookup list_lookup]. unfold bound_from at 2. rewrite Hb. reflexivity.
Qed.

(** C10. The file at the source path is never written or removed: the two
    derived paths differ from the source path, a run changes no file other
    than those two, the generator hands back either the derived paths or
    the source path with no inverted rendering, and the file at the source
    path is after the run what it was before. *)
Theorem source_image_untouched (path : string) (mw mh : Z) (w : World) :
  enhanced_path_of path <> path /\
  inverted_path_of path <> path /\
  (forall q, q = enhanced_path_of path \/ q = inverted_path_of path \/
             files (process_image path mw mh w) !! q = files w !! q) /\
  ((exists b, snd (preprocess_image path mw mh w)
              = (enhanced_path_of path, Some (inverted_path_of path), b)) \/
   snd (preprocess_image path mw mh w) = (path, None, false)) /\
  (forall ip w', files (fst (remove_temporaries path path ip w')) !! path
                 = files w' !! path \/ ip = Some path) /\
  files (process_image path mw mh w) !! path = files w !! path.
Proof.
  split; [apply enhanced_path_fresh|]. split; [apply inverted_path_fresh|].
  split; [|split; [apply preprocess_image_result|split]].
  - intros q.
    destruct (decide (q = enhanced_path_of path)) as [|N1]; [left; assumption|].
    destruct (decide (q = inverted_path_of path)) as [|N2]; [right; left; assumption|].
    right; right. apply process_image_confined; assumption.
  - intros ip w'. destruct (decide (ip = Some path)) as [|N]; [right; assumption|].
    left. unfold remove_temporaries, mbind, M_bind.
    rewrite String.eqb_refl. cbn [negb mret M_ret].
    destruct ip as [p|]; [|reflexivity].
    destruct (truthy_path (Some p)); [|reflexivity].
    unfold remove_if_exists, mbind, M_bind, path_exists, os_remove.
    case_bool_decide as H; [destruct H as [f Hf]; rewrite Hf|]; [|reflexivity].
    cbn [fst files]. apply lookup_delete_ne. congruence.
  - apply process_image_confined;
      [intros E; symmetry in E; exact (enhanced_path_fresh path E)
      |intros E; symmetry in E; exact (inverted_path_fresh path E)].
Qed.

Lemma append_cons (a : ascii) (s t : string) : String a s ++ t = String a (s ++ t).
Proof. reflexivity. Qed.

Lemma append_nil (t : string) : "" ++ t = t.
Proof. reflexivity. Qed.

Lemma append_assoc (s t u : string) : (s ++ t) ++ u = s ++ (t ++ u).
Proof.
  induction s as [|a s IH]; [reflexivity|].
  rewrite !append_cons. f_equal. exact IH.
Qed.

(** The text of an array of detections with at least one element starts
    with the key [coords]. *)
Lemma dumps_detections_head (l : Line) (ls : list Line) :
  exists t, dumps (JArr (map record_of (l :: ls)))
            = String "[" (String "{" (String dquote (String "c" t))).
Proof.
  unfold dumps. cbn [map json_dumps record_of fst snd].
  set (rest := map (json_dumps float_repr) (map record_of ls)).
  change (quote "coords")
    with (String dquote (String "c" ("oords" ++ String dquote ""))).
  destruct rest; cbn [join]; rewrite ?append_assoc, ?append_cons, ?append_nil;
    eexists; reflexivity.
Qed.

Lemma arbiter_rule_only_inverted (batchI : list Line) (bias : ColorBias) :
  arbiter_rule [] batchI bias = batchI.
Proof. destruct batchI; reflexivity. Qed.

Lemma arbiter_rule_only_enhanced (batchE : list Line) (bias : ColorBias) :
  arbiter_rule batchE [] bias = batchE.
Proof. destruct batchE; reflexivity. Qed.

(** C3, as the code has it.  A result without detections for one rendering
    ([None], [[]], [[None]] or [[[]]]) counts as an empty batch: the
    detections of the other rendering are printed as an ordinary array.  A
    call of the engine that raises ends the run with the one-element error
    array on standard output. *)
Theorem engine_failure_outcomes (path : string) (mw mh : Z) (w w1 : World)
    (ep ip : string) (bias : bool) :
  preprocess_image path mw mh w = (w1, (ep, Some ip, bias)) ->
  ip <> "" ->
  paddle_init = inr () ->
  (forall rE rI,
     paddle_ocr (files w1) ep = inr rE -> paddle_ocr (files w1) ip = inr rI ->
     batch_of rE = [] ->
     stdout (process_image path mw mh w)
     = (stdout w ++ [dumps (JArr (map record_of (batch_of rI)))])%list) /\
  (forall rE rI,
     paddle_ocr (files w1) ep = inr rE -> paddle_ocr (files w1) ip = inr rI ->
     batch_of rI = [] ->
     stdout (process_image path mw mh w)
     = (stdout w ++ [dumps (JArr (map record_of (batch_of rE)))])%list) /\
  (forall e,
     paddle_ocr (files w1) ep = inl e ->
     stdout (process_image path mw mh w)
     = (stdout w ++ [dumps (error_payload e)])%list) /\
  (forall rE e,
     paddle_ocr (files w1) ep = inr rE -> paddle_ocr (files w1) ip = inl e ->
     stdout (process_image path mw mh w)
     = (stdout w ++ [dumps (error_payload e)])%list).
Proof.
  intros Hpre Hip Hinit.
  assert (Hopt : forall r, paddle_ocr (files w1) ip = r ->
                           snd (ocr_if_present (Some ip) w1) = r).
  { intros r Hr. unfold ocr_if_present, truthy_path.
    destruct (String.eqb_spec ip "") as [E|_]; [contradiction|]. exact Hr. }
  pose proof (preprocess_image_silent path mw mh w) as Hs. rewrite Hpre in Hs.
  cbn [fst] in Hs.
  split; [|split; [|split]].
  - intros rE rI HE HI Hb.
    rewrite (process_image_stdout path mw mh w w1 ep (Some ip) bias rE rI); auto.
    rewrite Hb, arbiter_rule_only_inverted. reflexivity.
  - intros rE rI HE HI Hb.
    rewrite (process_image_stdout path mw mh w w1 ep (Some ip) bias rE rI); auto.
    rewrite Hb, arbiter_rule_only_enhanced. reflexivity.
  - intros e HE.
    rewrite (process_image_enhanced_raises path mw mh w w1 ep (Some ip) bias e); auto.
    cbn [print stdout]. rewrite Hs. reflexivity.
  - intros rE e HE HI.
    rewrite (process_image_inverted_raises path mw mh w w1 ep (Some ip) bias rE e); auto.
    cbn [print stdout]. rewrite Hs. reflexivity.
Qed.

End Claims.

(** * Runs on the small platform *)

Section DemoRuns.
Import Demo.
Local Open Scope string_scope.

(** C2, at an engine that raises.  Both renderings have been written when
    the engine is called; the call raises, the handler of line 146 prints
    the error array, and lines 92-95 are never reached: the two temporary
    files are still there when the run is over. *)
Theorem temporaries_left_when_engine_raises :
  let P := demo_platform engine_down in
  let w0 := world_of P {[ "photo.png" := dark_pic ]} in
  let w := process_image "photo.png" 1600 1600 w0 in
  files w !! "photo_enhanced.png" = Some dark_pic /\
  files w !! "photo_inverted.png" = Some dark_pic /\
  stdout w = [dq "[{'error': 'engine failure'}]"].
Proof. vm_compute. repeat split. Qed.

(** On the same picture with an engine that answers, the two temporary
    files are gone when the run is over. *)
Lemma temporaries_removed_when_engine_answers :
  let P := demo_platform engine_5_3 in
  let w0 := world_of P {[ "photo.png" := dark_pic ]} in
  let w := process_image "photo.png" 1600 1600 w0 in
  files w !! "photo_enhanced.png" = None /\
  files w !! "photo_inverted.png" = None /\
  files w !! "photo.png" = Some dark_pic.
Proof. vm_compute. repeat split. Qed.

(** C3 as stated fails: the engine raises on the enhanced rendering and
    would read one line on the inverted one; the run prints the error
    array, which is the text of no array of detections. *)
Lemma engine_error_ends_run :
  let P := demo_platform engine_enhanced_down in
  let w0 := world_of P {[ "photo.png" := dark_pic ]} in
  paddle_ocr (files (fst (preprocess_image "photo.png" 1600 1600 w0)))
    "photo_inverted.png" = inr (Some [Some [line "x" (3#4)]]) /\
  stdout (process_image "photo.png" 1600 1600 w0)
    = [dq "[{'error': 'engine failure'}]"] /\
  forall ls : list Line,
    dumps (JArr (map record_of ls)) <> dq "[{'error': 'engine failure'}]".
Proof.
  intros P w0.
  split; [vm_compute; reflexivity|]. split; [vm_compute; reflexivity|].
  intros [|l ls]; [vm_compute; discriminate|].
  destruct (dumps_detections_head (P := P) l ls) as [t ->].
  change (dq "[{'error': 'engine failure'}]")
    with (String "[" (String "{" (String dquote
            (String "e" (dq "rror': 'engine failure'}]"))))).
  discriminate.
Qed.

(** A result without detections, on the other hand, counts as an empty
    batch: the engine answers [[None]] on the enhanced rendering and one
    line on the inverted one, and that line is printed. *)
Lemma unusable_result_counts_as_empty :
  let P := demo_platform engine_inverted_only in
  let w0 := world_of P {[ "photo.png" := dark_pic ]} in
  stdout (process_image "photo.png" 1600 1600 w0)
  = [dq ("[{'coords': [[0.0, 0.0], [1.0, 0.0], [1.0, 1.0], [0.0, 1.0]], "
         ++ "'text': 'x', 'confidence': 0.75}]")].
Proof. vm_compute. reflexivity. Qed.

(** C7 as stated fails: the height exceeds its bound, and the width bound
    is so large that [max_width / width] is no double; the division raises
    and no resampling takes place. *)
Lemma huge_bound_prevents_resize :
  let P := demo_platform engine_blank in
  img_size tall_pic = (2156, 3000)%Z /\
  (1600 < 3000)%Z /\
  resize_if_needed tall_pic (2 ^ 1040) 1600
    = inl "integer division result too large for a float" /\
  (forall size, resize_if_needed tall_pic (2 ^ 1040) 1600 <> pil_resize tall_pic size) /\
  snd (preprocess_image "photo.png" (2 ^ 1040) 1600
         (world_of P {[ "photo.png" := tall_pic ]}))
    = ("photo.png", None, false).
Proof.
  intros P. split; [reflexivity|]. split; [reflexivity|].
  assert (E : resize_if_needed tall_pic (2 ^ 1040) 1600
              = inl "integer division result too large for a float")
    by (vm_compute; reflexivity).
  split; [exact E|]. split.
  - intros size. rewrite E. discriminate.
  - vm_compute. reflexivity.
Qed.

(** The claims at work on the small platform. *)

Lemma arbiter_selection_precedence_witness :
  let P := demo_platform engine_5_3 in
  let w0 := world_of P {[ "photo.png" := dark_pic ]} in
  let rE := Some [Some [line "a" (1#2); line "b" (1#2); line "c" (1#2);
                        line "d" (1#2); line "e" (1#2)]] in
  let rI := Some [Some [line "x" (3#4); line "y" (3#4); line "z" (3#4)]] in
  batch_of (select_result rE rI true) = batch_of rI.
Proof.
  intros P w0 rE rI.
  assert (Hpre : preprocess_image "photo.png" 1600 1600 w0
                 = (fst (preprocess_image "photo.png" 1600 1600 w0),
                    ("photo_enhanced.png", Some "photo_inverted.png", true))).
  { replace ("photo_enhanced.png", Some "photo_inverted.png", true)
      with (snd (preprocess_image "photo.png" 1600 1600 w0))
      by (vm_compute; reflexivity).
    apply surjective_pairing. }
  refine (proj2 (proj2 (arbiter_selection_precedence (P := P)
            "photo.png" 1600 1600 w0 _ _ _ true rE rI Hpre _ _ _ _)) _ _ _);
    [intros E; discriminate E | vm_compute; reflexivity ..].
Defined.

Lemma empty_batches_print_empty_array_witness :
  let P := demo_platform engine_blank in
  let w0 := world_of P {[ "photo.png" := dark_pic ]} in
  stdout (process_image "photo.png" 1600 1600 w0) = ["[]"].
Proof.
  intros P w0.
  assert (Hpre : preprocess_image "photo.png" 1600 1600 w0
                 = (fst (preprocess_image "photo.png" 1600 1600 w0),
                    ("photo_enhanced.png", Some "photo_inverted.png", true))).
  { replace ("photo_enhanced.png", Some "photo_inverted.png", true)
      with (snd (preprocess_image "photo.png" 1600 1600 w0))
      by (vm_compute; reflexivity).
    apply surjective_pairing. }
  refine (proj2 (proj2 (empty_batches_print_empty_array (P := P)
            "photo.png" 1600 1600 w0 _ _ _ _
            (Some [None]) (Some [None]) Hpre _ _ _ _ _)));
    vm_compute; reflexivity.
Defined.

Lemma engine_failure_outcomes_witness :
  let P := demo_platform engine_enhanced_down in
  let w0 := world_of P {[ "photo.png" := dark_pic ]} in
  stdout (process_image "photo.png" 1600 1600 w0)
  = [dumps (error_payload "engine failure")].
Proof.
  intros P w0.
  assert (Hpre : preprocess_image "photo.png" 1600 1600 w0
                 = (fst (preprocess_image "photo.png" 1600 1600 w0),
                    ("photo_enhanced.png", Some "photo_inverted.png", true))).
  { replace ("photo_enhanced.png", Some "photo_inverted.png", true)
      with (snd (preprocess_image "photo.png" 1600 1600 w0))
      by (vm_compute; reflexivity).
    apply surjective_pairing. }
  refine (proj1 (proj2 (proj2 (engine_failure_outcomes (P := P)
            "photo.png" 1600 1600 w0 _ _ _ true Hpre _ _)))
            "engine failure" _);
    [intros E; discriminate E | vm_compute; reflexivity ..].
Defined.

Lemma detect_text_color_histogram_witness :
  let P := demo_platform engine_blank in
  let w0 := world_of P {[ "photo.png" := dark_pic ]} in
  detect_text_color "photo.png" w0 = (w0, true).
Proof.
  intros P w0.
  exact (proj1 (proj2 (proj2 (proj2 (proj2
           (detect_text_color_histogram (P := P) "photo.png" w0 dark_pic
              (pic_gray dark_pic) eq_refl eq_refl)))))).
Defined.

Lemma detect_text_color_recovers_witness :
  let P := demo_platform engine_blank in
  let w0 := world_of P {[ "photo.png" := torn_pic ]} in
  detect_text_color "photo.png" w0
  = (eprint "Warning: Error detecting text color: image file is truncated" w0, false).
Proof.
  intros P w0.
  exact (proj1 (detect_text_color_recovers (P := P) "photo.png" w0
                  "image file is truncated" eq_refl)).
Defined.

Lemma preprocess_image_degrades_witness :
  let P := demo_platform engine_blank in
  let w0 := world_of P {[ "photo.png" := dark_pic ]} in
  snd (preprocess_image "nope.png" 1600 1600 w0) = ("nope.png", None, false).
Proof.
  intros P w0.
  refine (proj1 (preprocess_image_degrades (P := P) "nope.png" 1600 1600 w0
                   "[Errno 2] No such file or directory: 'nope.png'" _)).
  apply fails_load. vm_compute. reflexivity.
Defined.

Lemma resize_policy_witness :
  let P := demo_platform engine_blank in
  exists rw rh new_width new_height,
    truediv 1600 2156 = inr rw /\
    truediv 1600 3000 = inr rh /\
    scale 2156 (py_min rw rh) = inr new_width /\
    scale 3000 (py_min rw rh) = inr new_height /\
    resize_if_needed tall_pic 1600 1600 = pil_resize tall_pic (new_width, new_height) /\
    (0 <= new_width <= 1600)%Z /\ (0 <= new_height <= 1600)%Z /\
    ((2156 < 2 ^ 26)%Z -> (3000 < 2 ^ 26)%Z ->
     (Z.abs (new_width * 3000 - new_height * 2156) <= Z.max 2156 3000)%Z).
Proof.
  intros P.
  refine (proj2 (resize_policy (P := P) tall_pic 2156 3000 1600 1600 eq_refl)
            _ _ _ _ _);
    first [right; reflexivity | split; reflexivity].
Defined.

Lemma main_argument_handling_witness :
  let P := demo_platform engine_blank in
  let w0 := world_of P {[ "photo.png" := dark_pic ]} in
  main ["ocr.py"] w0 = (print (dq "[{'error': 'No image path provided'}]") w0, 1%Z) /\
  main ["ocr.py"; "photo.png"; "wide"] w0
  = (process_image "photo.png" 1600 1600 w0, 0%Z).
Proof.
  intros P w0.
  pose proof (main_argument_handling (P := P) w0) as (H1 & _ & H3 & _).
  split.
  - apply H1. simpl. lia.
  - apply (H3 "ocr.py" "photo.png" "wide" []). reflexivity.
Defined.

End DemoRuns.

(** * Further properties of the code *)

(** ** Arithmetic of the resize at its edges *)

Section ResizeEdges.
Local Open Scope Q_scope.






(** Scaling a side by a ratio of at most one does not lengthen it. *)
Lemma scale_shrinks (n m : Z) (r : Q) :
  (0 < n < 2 ^ 31)%Z -> 0 < r -> r <= 1 -> scale n r = inr m -> (0 <= m <= n)%Z.
Proof.
  intros Hn Hr Hr1 E.
  assert (Hn0 : 0 < inject_Z n) by (apply inject_pos; lia).
  assert (Hn31 : inject_Z n < 2 ^ 31) by (apply inject_lt_pow2; lia).
  destruct (scale_le n r n 0) as (m' & Hm & Hm0 & Hmle);
    [assumption | assumption | lia | | | ].
  - change (2 ^ 0) with 1. nra.
  - change (2 ^ 0) with 1. pose proof (pow2_lt 31 (0 + 53) ltac:(lia)). lra.
  - rewrite E in Hm. injection Hm as <-.
    change (2 ^ 0) with 1 in Hmle. rewrite Qmult_1_r in Hmle.
    rewrite <- Zle_Qle in Hmle. lia.
Qed.

End ResizeEdges.

(** ** [os.path.splitext] on the derived paths *)

Section Extensions.
Local Open Scope string_scope.

Lemma rfind_from_eq (c : ascii) (s : string) (i last : nat) :
  rfind_from c s i last
  = if (rfind1 c s =? 0)%nat then last else (i + rfind1 c s)%nat.
Proof.
  revert i last. induction s as [|a s IH]; intros i last; [reflexivity|].
  unfold rfind1. cbn [rfind_from].
  rewrite (IH (S i)), (IH 1%nat).
  destruct (Nat.eqb_spec (rfind1 c s) 0) as [E|N].
  - destruct (Ascii.eqb a c); cbn [Nat.eqb]; lia.
  - destruct (Nat.eqb_spec (1 + rfind1 c s) 0); lia.
Qed.

Lemma rfind1_cons (c a : ascii) (s : string) :
  rfind1 c (String a s)
  = if (rfind1 c s =? 0)%nat then (if Ascii.eqb a c then 1 else 0)%nat
    else S (rfind1 c s).
Proof. unfold rfind1 at 1. cbn [rfind_from]. rewrite rfind_from_eq. reflexivity. Qed.

(** The last occurrence in a concatenation is the last one of the second
    part if there is one, of the first part otherwise. *)
Lemma rfind1_app (c : ascii) (s t : string) :
  rfind1 c (s ++ t)
  = if (rfind1 c t =? 0)%nat then rfind1 c s
    else (String.length s + rfind1 c t)%nat.
Proof.
  induction s as [|a s IH].
  - rewrite append_nil. destruct (rfind1 c t =? 0)%nat eqn:E; [|reflexivity].
    apply Nat.eqb_eq in E. rewrite E. reflexivity.
  - rewrite append_cons, !rfind1_cons, IH. cbn [String.length].
    destruct (Nat.eqb_spec (rfind1 c t) 0) as [E|N]; [reflexivity|].
    destruct (Nat.eqb_spec (String.length s + rfind1 c t) 0); lia.
Qed.

Lemma rfind1_le (c : ascii) (s : string) : (rfind1 c s <= String.length s)%nat.
Proof.
  induction s as [|a s IH]; [reflexivity|].
  rewrite rfind1_cons. cbn [String.length].
  destruct (rfind1 c s =? 0)%nat; [destruct (Ascii.eqb a c)|]; lia.
Qed.

Lemma split_at_app_length (a b : string) :
  split_at (String.length a) (a ++ b) = (a, b).
Proof.
  induction a as [|c a IH]; [destruct b; reflexivity|].
  rewrite append_cons. cbn [String.length split_at]. rewrite IH. reflexivity.
Qed.

Lemma split_at_fst_length (n : nat) (p : string) :
  (n <= String.length p)%nat -> String.length (fst (split_at n p)) = n.
Proof.
  revert p. induction n as [|n IH]; intros p H; [destruct p; reflexivity|].
  destruct p as [|a p]; [cbn in H; lia|]. cbn [split_at].
  specialize (IH p ltac:(cbn in H; lia)).
  destruct (split_at n p) as [l r]. cbn [fst String.length] in *. lia.
Qed.

Lemma has_name_step (p : string) (i n : nat) :
  has_name p i (S n)
  = match String.get i p with
    | Some c => if Ascii.eqb c "." then has_name p (S i) n else true
    | None => true
    end.
Proof.
  cbn [has_name]. destruct (String.get i p) as [c|]; [|reflexivity].
  destruct c as [[] [] [] [] [] [] [] []]; reflexivity.
Qed.

Lemma has_name_ext (p p' : string) (i n : nat) :
  (forall k, (k < n)%nat -> String.get (i + k) p = String.get (i + k) p') ->
  has_name p i n = has_name p' i n.
Proof.
  revert i. induction n as [|n IH]; intros i H; [reflexivity|].
  rewrite !has_name_step.
  pose proof (H 0%nat ltac:(lia)) as H0. rewrite Nat.add_0_r in H0. rewrite <- H0.
  rewrite (IH (S i)); [reflexivity|].
  intros k Hk. replace (S i + k)%nat with (i + S k)%nat by lia. apply H. lia.
Qed.

Lemma has_name_found (p : string) (i n k : nat) (c : ascii) :
  (k < n)%nat -> String.get (i + k) p = Some c -> Ascii.eqb c "." = false ->
  has_name p i n = true.
Proof.
  revert i k. induction n as [|n IH]; intros i k Hk Hg Hc; [lia|].
  rewrite has_name_step. destruct (String.get i p) as [c'|] eqn:E; [|reflexivity].
  destruct (Ascii.eqb c' ".") eqn:E'; [|reflexivity].
  destruct k as [|k].
  - rewrite Nat.add_0_r, E in Hg. injection Hg as ->. congruence.
  - apply (IH (S i) k); [lia | | assumption].
    replace (S i + k)%nat with (i + S k)%nat by lia. assumption.
Qed.

Lemma get_app_l (s t : string) (k : nat) :
  (k < String.length s)%nat -> String.get k (s ++ t) = String.get k s.
Proof. intros H. symmetry. apply append_correct1. assumption. Qed.

Lemma get_app_r (s t : string) (k : nat) :
  String.get (String.length s + k) (s ++ t) = String.get k t.
Proof. rewrite Nat.add_comm. symmetry. apply append_correct2. Qed.

Lemma append_nil_r (s : string) : s ++ "" = s.
Proof.
  induction s as [|a s IH]; [reflexivity|]. rewrite append_cons, IH. reflexivity.
Qed.

(** A suffix without dot and without slash, put between the root and the
    extension of a path, gives a path with the same extension. *)
Lemma splitext_suffixed (p : string) (c0 : ascii) (s0 : string) :
  rfind1 "." (String c0 s0) = 0%nat -> rfind1 "/" (String c0 s0) = 0%nat ->
  splitext (fst (splitext p) ++ String c0 s0 ++ snd (splitext p))
  = (fst (splitext p) ++ String c0 s0, snd (splitext p)).
Proof.
  set (sfx := String c0 s0). intros HdS HsS.
  assert (Hc0 : Ascii.eqb c0 "." = false).
  { unfold sfx in HdS. rewrite rfind1_cons in HdS.
    destruct (rfind1 "." s0 =? 0)%nat; [|discriminate].
    destruct (Ascii.eqb c0 "."); [discriminate | reflexivity]. }
  assert (HS : String.length sfx = S (String.length s0)) by reflexivity.
  pose proof (splitext_app p) as Happ.
  unfold splitext at 2 3 4 5. unfold splitext in Happ.
  set (sep1 := rfind1 "/" p) in *. set (dot1 := rfind1 "." p) in *.
  destruct ((sep1 <? dot1)%nat && has_name p sep1 (dot1 - 1 - sep1)) eqn:C.
  - (* the path has an extension *)
    apply andb_prop in C as [C1 C2]. apply Nat.ltb_lt in C1.
    pose proof (rfind1_le "." p) as Hle. fold dot1 in Hle.
    pose proof (split_at_fst_length (dot1 - 1) p ltac:(lia)) as Hlen.
    destruct (split_at (dot1 - 1) p) as [root ext]. cbn [fst snd] in *.
    assert (Hd : dot1 = rfind1 "." (root ++ ext)) by (rewrite Happ; reflexivity).
    assert (Hs : sep1 = rfind1 "/" (root ++ ext)) by (rewrite Happ; reflexivity).
    rewrite rfind1_app in Hd, Hs.
    pose proof (rfind1_le "." root). pose proof (rfind1_le "/" root).
    assert (Hde : rfind1 "." ext = 1%nat).
    { destruct (Nat.eqb_spec (rfind1 "." ext) 0); lia. }
    assert (Hse : rfind1 "/" ext = 0%nat).
    { destruct (Nat.eqb_spec (rfind1 "/" ext) 0); lia. }
    rewrite Hse in Hs. cbn [Nat.eqb] in Hs.
    unfold splitext.
    replace (root ++ sfx ++ ext) with ((root ++ sfx) ++ ext) by apply append_assoc.
    rewrite !(rfind1_app _ (root ++ sfx) ext), Hde, Hse. cbn [Nat.eqb].
    rewrite (rfind1_app "/" root sfx), HsS. cbn [Nat.eqb]. rewrite <- Hs.
    rewrite string_length_app.
    assert (L1 : (sep1 <? String.length root + String.length sfx + 1)%nat = true)
      by (apply Nat.ltb_lt; lia).
    rewrite L1. cbn [andb].
    rewrite (has_name_found _ sep1 _ (String.length root - sep1) c0).
    + replace (String.length root + String.length sfx + 1 - 1)%nat
        with (String.length (root ++ sfx)) by (rewrite string_length_app; lia).
      apply split_at_app_length.
    + lia.
    + replace (sep1 + (String.length root - sep1))%nat
        with (String.length root + 0)%nat by lia.
      rewrite append_assoc, get_app_r. reflexivity.
    + assumption.
  - (* the path has no extension *)
    cbn [fst snd] in *. unfold splitext.
    rewrite (append_nil_r sfx).
    rewrite !(rfind1_app _ p sfx), HdS, HsS. cbn [Nat.eqb].
    fold sep1 dot1.
    assert (C' : ((sep1 <? dot1)%nat && has_name (p ++ sfx) sep1 (dot1 - 1 - sep1))
                 = false).
    { destruct (Nat.ltb_spec sep1 dot1) as [Hlt|]; [|reflexivity]. cbn [andb] in *.
      rewrite <- C. apply has_name_ext. intros k Hk.
      pose proof (rfind1_le "." p) as Hle. fold dot1 in Hle.
      apply get_app_l. lia. }
    rewrite C'. reflexivity.
Qed.

Lemma append_inv_head (s t u : string) : s ++ t = s ++ u -> t = u.
Proof.
  induction s as [|a s IH]; [intros H; exact H|].
  rewrite !append_cons. intros [= H]. apply IH. exact H.
Qed.

(** The two renderings never share a path. *)
Lemma derived_paths_distinct (path : string) :
  enhanced_path_of path <> inverted_path_of path.
Proof.
  unfold enhanced_path_of, inverted_path_of.
  destruct (splitext path) as [n e]. intros H.
  apply append_inv_head in H. discriminate H.
Qed.

(** X6. Both derived paths keep the extension of the source path: what
    [os.path.splitext] gives on [<root>_enhanced<ext>] is the root with the
    suffix and the extension of the source, and the same for the inverted
    path; so both renderings are saved in the format of the source, and a
    source without extension gives renderings without extension. *)
Theorem derived_paths_keep_extension (path : string) :
  splitext (enhanced_path_of path)
    = (fst (splitext path) ++ "_enhanced", snd (splitext path)) /\
  splitext (inverted_path_of path)
    = (fst (splitext path) ++ "_inverted", snd (splitext path)).
Proof.
  pose proof (splitext_suffixed path "_" "enhanced" eq_refl eq_refl) as He.
  pose proof (splitext_suffixed path "_" "inverted" eq_refl eq_refl) as Hi.
  unfold enhanced_path_of, inverted_path_of.
  destruct (splitext path) as [n e]. split; assumption.
Qed.

End Extensions.

(** ** The JSON text of an error *)

Section ErrorText.
Context `{P : Platform}.
Local Open Scope string_scope.






End ErrorText.

(** ** Runs of the three functions *)

Section FurtherRuns.
Context `{P : Platform}.
Local Open Scope string_scope.

Lemma remove_if_exists_world (p : string) (w : World) :
  remove_if_exists p w =
    ({| files := delete p (files w); stdout := stdout w; stderr := stderr w |}, inr ()).
Proof.
  unfold remove_if_exists, mbind, M_bind, path_exists, os_remove.
  case_bool_decide as H.
  - destruct H as [f ->]. reflexivity.
  - cbn [mret M_ret]. rewrite delete_id.
    + destruct w; reflexivity.
    + destruct (files w !! p) eqn:E; [exfalso; apply H; eauto | reflexivity].
Qed.

(** Lines 92-95 as a function of the files. *)
Lemma remove_temporaries_world (path ep : string) (ip : option string) (w : World) :
  remove_temporaries path ep ip w =
    ({| files := without_temporaries path ep ip (files w);
        stdout := stdout w; stderr := stderr w |}, inr ()).
Proof.
  unfold remove_temporaries, without_temporaries, mbind, M_bind.
  destruct (negb (String.eqb ep path)); cbn [mret M_ret];
    rewrite ?remove_if_exists_world;
    (destruct ip as [p|]; [destruct (truthy_path (Some p))|]);
    cbn [mret M_ret]; rewrite ?remove_if_exists_world; destruct w; reflexivity.
Qed.

Lemma without_temporaries_idemp (path ep : string) (ip : option string)
    (fs : gmap string File) :
  without_temporaries path ep ip (without_temporaries path ep ip fs)
  = without_temporaries path ep ip fs.
Proof.
  unfold without_temporaries. apply map_eq. intros i.
  destruct (negb (String.eqb ep path));
    (destruct ip as [p|]; [destruct (truthy_path (Some p))|]);
    rewrite ?lookup_delete; repeat case_decide; reflexivity.
Qed.

Lemma without_temporaries_derived (path : string) (fs : gmap string File) :
  without_temporaries path (enhanced_path_of path) (Some (inverted_path_of path)) fs
  = delete (inverted_path_of path) (delete (enhanced_path_of path) fs).
Proof.
  unfold without_temporaries.
  destruct (String.eqb_spec (enhanced_path_of path) path) as [E|_];
    [destruct (enhanced_path_fresh path E)|].
  cbn [negb]. rewrite inverted_path_truthy. reflexivity.
Qed.

(** X14. The removal of lines 92-95 never raises and prints nothing; after
    it the enhanced path, unless it is the source path, and the inverted
    path, unless it is absent or empty, name no file; and running it a
    second time changes nothing. *)
Theorem cleanup_is_idempotent (path ep : string) (ip : option string) (w : World) :
  snd (remove_temporaries path ep ip w) = inr () /\
  stdout (fst (remove_temporaries path ep ip w)) = stdout w /\
  stderr (fst (remove_temporaries path ep ip w)) = stderr w /\
  (ep = path \/ files (fst (remove_temporaries path ep ip w)) !! ep = None) /\
  (forall p, ip = Some p ->
     p = "" \/ files (fst (remove_temporaries path ep ip w)) !! p = None) /\
  remove_temporaries path ep ip (fst (remove_temporaries path ep ip w))
  = (fst (remove_temporaries path ep ip w), inr ()).
Proof.
  rewrite !remove_temporaries_world. cbn [fst snd files stdout stderr].
  rewrite without_temporaries_idemp.
  repeat split.
  - unfold without_temporaries.
    destruct (String.eqb_spec ep path) as [E|N]; [left; assumption | right].
    cbn [negb]. destruct ip as [p|]; [destruct (truthy_path (Some p))|];
      rewrite ?lookup_delete; repeat case_decide;
      first [reflexivity | congruence].
  - intros p ->. unfold without_temporaries, truthy_path.
    destruct (String.eqb_spec p "") as [E|N]; [left; assumption | right].
    cbn [negb]. apply lookup_delete_eq.
Qed.

(** X1. When preprocessing has written both renderings and both engine
    calls return, the files after the run are the files before it without
    the two derived paths: the temporaries are gone, a file that was at a
    derived path before the run is gone with them, and every other file is
    as it was. *)
Theorem temporaries_removed_after_recognition (path : string) (mw mh : Z)
    (w w1 : World) (bias : bool) (rE rI : OcrResult) :
  preprocess_image path mw mh w
    = (w1, (enhanced_path_of path, Some (inverted_path_of path), bias)) ->
  paddle_init = inr () ->
  paddle_ocr (files w1) (enhanced_path_of path) = inr rE ->
  paddle_ocr (files w1) (inverted_path_of path) = inr rI ->
  files (process_image path mw mh w)
  = delete (inverted_path_of path) (delete (enhanced_path_of path) (files w)).
Proof.
  intros Hpre Hinit HE HI.
  rewrite (process_image_run path mw mh w w1 _ _ bias rE rI Hpre Hinit HE).
  2:{ unfold ocr_if_present. rewrite inverted_path_truthy. exact HI. }
  cbn [print files]. rewrite remove_temporaries_world. cbn [fst files].
  rewrite without_temporaries_derived.
  apply map_eq. intros q. rewrite !lookup_delete.
  repeat case_decide; try reflexivity.
  pose proof (preprocess_image_confined path mw mh w q) as Hc.
  rewrite Hpre in Hc. cbn [fst] in Hc. apply Hc; congruence.
Qed.

(** Everything [process_body] does before its [print] is silent, and each
    way out of it prints once. *)
Lemma process_image_prints_once (path : string) (mw mh : Z) (w : World) :
  exists s, stdout (process_image path mw mh w) = (stdout w ++ [s])%list.
Proof.
  unfold process_image, try_except, process_body, mbind, M_bind, total, call, ocr.
  pose proof (preprocess_image_silent path mw mh w) as Hs.
  destruct (preprocess_image path mw mh w) as [w1 [[ep ip] bias]]. cbn [fst] in Hs.
  destruct paddle_init as [e|[]];
    [eexists; cbn [fst print stdout]; rewrite Hs; reflexivity|].
  destruct (paddle_ocr (files w1) ep) as [e|rE];
    [eexists; cbn [fst print stdout]; rewrite Hs; reflexivity|].
  rewrite ocr_if_present_eq.
  destruct (snd (ocr_if_present ip w1)) as [e|rI];
    [eexists; cbn [fst print stdout]; rewrite Hs; reflexivity|].
  rewrite remove_temporaries_world.
  eexists. cbn [fst print stdout]. rewrite Hs. reflexivity.
Qed.

(** X2. Every run of the script, whatever its arguments, the files on disk
    and the behaviour of the libraries, adds exactly one line to standard
    output: the array of detections or one error array, never both, never
    none. *)
Theorem every_run_prints_one_line (argv : list string) (w : World) :
  exists s, stdout (fst (main argv w)) = (stdout w ++ [s])%list.
Proof.
  unfold main. destruct (List.length argv <? 2)%nat.
  - eexists. reflexivity.
  - cbn [fst]. apply process_image_prints_once.
Qed.

(** After a failed preprocessing the run removes and writes nothing more,
    whatever the engine does. *)
Lemma degraded_run_files (path : string) (mw mh : Z) (w : World) :
  snd (preprocess_image path mw mh w) = (path, None, false) ->
  files (process_image path mw mh w) = files (fst (preprocess_image path mw mh w)).
Proof.
  intros Hres.
  unfold process_image, try_except, process_body, mbind, M_bind, total, call, ocr.
  destruct (preprocess_image path mw mh w) as [w1 r]. cbn [fst snd] in *. subst r.
  destruct paddle_init as [e|[]]; [reflexivity|].
  destruct (paddle_ocr (files w1) path) as [e|rE]; [reflexivity|].
  cbn [ocr_if_present mret M_ret].
  unfold remove_temporaries, mbind, M_bind. rewrite String.eqb_refl.
  reflexivity.
Qed.

(** X3. When a step of preprocessing raises, the rest of the run deletes
    no file (the guard of line 92 keeps the source image, which stands in
    for the enhanced rendering), and if the engine answers on the source
    image, its detections are what the run prints. *)
Theorem failed_preprocessing_removes_nothing (path : string) (mw mh : Z)
    (w : World) (e : Exn) :
  PreprocessFails path mw mh w e ->
  files (process_image path mw mh w) = files (fst (preprocess_image path mw mh w)) /\
  (forall rE,
     paddle_init = inr () ->
     paddle_ocr (files (fst (preprocess_image path mw mh w))) path = inr rE ->
     stdout (process_image path mw mh w)
     = (stdout w ++ [dumps (JArr (map record_of (batch_of rE)))])%list).
Proof.
  intros H. destruct (preprocess_image_failure path mw mh w e H) as (w' & Hp & Hs).
  split.
  - apply degraded_run_files. rewrite Hp. reflexivity.
  - intros rE Hinit HE. rewrite Hp in HE. cbn [fst] in HE.
    rewrite (process_image_stdout path mw mh w _ path None false rE None Hp Hinit HE eq_refl).
    cbn [batch_of]. rewrite arbiter_rule_only_enhanced. reflexivity.
Qed.

(** X4. If the enhanced rendering has been saved and the save of the
    inverted one raises, preprocessing reports the source path with no
    inverted path, so that nothing is removed afterwards: what the first
    save put at the enhanced path is still there when the run is over. *)
Theorem enhanced_file_left_when_inverted_save_fails (path : string) (mw mh : Z)
    (w w1 : World) (img img' ie ii iie : Image) (e : Exn) :
  snd (Image_open path w) = inr img ->
  resize_if_needed img mw mh = inr img' ->
  pil_contrast img' = inr ie ->
  pil_invert img' = inr ii ->
  pil_contrast ii = inr iie ->
  Image_save ie (enhanced_path_of path) (fst (detect_text_color path w))
    = (w1, inr ()) ->
  snd (pil_save iie (inverted_path_of path) (files w1 !! inverted_path_of path))
    = inl e ->
  snd (preprocess_image path mw mh w) = (path, None, false) /\
  files (process_image path mw mh w) !! enhanced_path_of path
  = fst (pil_save ie (enhanced_path_of path) (files w !! enhanced_path_of path)).
Proof.
  intros Ho Hr Hc Hi Hci Hs1 Hs2.
  assert (Hres : snd (preprocess_image path mw mh w) = (path, None, false)).
  { destruct (preprocess_image_failure path mw mh w e
                (fails_save_inverted path mw mh w e img img' ie ii iie w1
                   Ho Hr Hc Hi Hci Hs1 Hs2)) as (w' & Hp & _).
    rewrite Hp. reflexivity. }
  split; [exact Hres|].
  rewrite (degraded_run_files path mw mh w Hres).
  unfold preprocess_image, try_except, preprocess_body, mbind, M_bind, call, total.
  rewrite Image_open_eq, Ho, Hr.
  pose proof (detect_text_color_frame path w) as [Hf _].
  destruct (detect_text_color path w) as [wd b]. cbn [fst] in Hs1, Hf.
  rewrite Hc, Hi, Hci, Hs1.
  unfold Image_save in *.
  destruct (pil_save iie (inverted_path_of path) (files w1 !! inverted_path_of path))
    as [f2 r2]. cbn [snd] in Hs2. subst r2. cbn [fst eprint files].
  rewrite lookup_partial_alter_ne
    by (intros E; symmetry in E; exact (derived_paths_distinct path E)).
  rewrite Hf in Hs1.
  destruct (pil_save ie (enhanced_path_of path) (files w !! enhanced_path_of path))
    as [f1 r1]. injection Hs1 as <- _. cbn [files fst].
  apply lookup_partial_alter_eq.
Qed.

(** X5. Whenever preprocessing reports an inverted path, the two paths it
    reports are the derived ones, they differ from each other and from the
    source path, and the bias it reports is the answer of the detector on
    the source image as it is on disk, not on the resized one. *)
Theorem preprocess_image_variants (path : string) (mw mh : Z) (w : World)
    (ep ip : string) (b : bool) :
  snd (preprocess_image path mw mh w) = (ep, Some ip, b) ->
  ep = enhanced_path_of path /\ ip = inverted_path_of path /\
  b = snd (detect_text_color path w) /\
  ep <> ip /\ ep <> path /\ ip <> path.
Proof.
  unfold preprocess_image, try_except, preprocess_body, mbind, M_bind, call, total.
  rewrite Image_open_eq.
  destruct (snd (Image_open path w)) as [e|img]; [discriminate|].
  destruct (resize_if_needed img mw mh) as [e|img']; [discriminate|].
  destruct (detect_text_color path w) as [wd b'].
  destruct (pil_contrast img') as [e|ie]; [discriminate|].
  destruct (pil_invert img') as [e|ii]; [discriminate|].
  destruct (pil_contrast ii) as [e|iie]; [discriminate|].
  destruct (Image_save ie (enhanced_path_of path) wd) as [w1 [e|[]]]; [discriminate|].
  destruct (Image_save iie (inverted_path_of path) w1) as [w2 [e|[]]]; [discriminate|].
  cbn [snd mret M_ret]. intros [= <- <- <-].
  repeat split; auto using derived_paths_distinct, enhanced_path_fresh, inverted_path_fresh.
Qed.

Lemma pixels_where_split (p : N -> bool) (px : list byte) :
  (pixels_where p px + pixels_where (fun v => negb (p v)) px
   = Z.of_nat (List.length px))%Z.
Proof.
  unfold pixels_where. induction px as [|b px IH]; [reflexivity|].
  cbn [List.filter]. destruct (p (Byte.to_N b)); cbn [negb List.length]; lia.
Qed.

(** X7. On a readable image every pixel is counted once, as dark (below
    128) or as light; the detector answers [True] exactly when the dark
    pixels are more than half of all pixels, and [False] on an image
    without pixels. *)
Theorem detect_text_color_majority (path : string) (w : World)
    (img : Image) (img_array : list byte) :
  snd (Image_open path w) = inr img ->
  pil_gray img = inr img_array ->
  let dark := pixels_where (fun v => (v <? 128)%N) img_array in
  let light := pixels_where (fun v => (128 <=? v)%N) img_array in
  (dark + light = Z.of_nat (List.length img_array))%Z /\
  (snd (detect_text_color path w) = true
   <-> (Z.of_nat (List.length img_array) < 2 * dark)%Z) /\
  (img_array = [] -> snd (detect_text_color path w) = false).
Proof.
  intros Ho Hg dark light.
  assert (Hsum : (dark + light = Z.of_nat (List.length img_array))%Z).
  { unfold dark, light. rewrite <- (pixels_where_split (fun v => (v <? 128)%N)).
    f_equal. apply pixels_where_ext. intros b.
    destruct (N.leb_spec 128 (Byte.to_N b)), (N.ltb_spec (Byte.to_N b) 128);
      (reflexivity || lia). }
  rewrite (detect_text_color_read path w img img_array Ho Hg). cbn [snd].
  rewrite dark_mass_eq, light_mass_eq. fold dark light.
  split; [exact Hsum|]. split.
  - rewrite Z.ltb_lt. lia.
  - intros ->. reflexivity.
Qed.

(** X8. In every world, readable image or not, the detector changes no
    file and prints nothing on standard output; on standard error it
    prints nothing, or one warning line, and then it answers [False]. *)
Theorem detect_text_color_touches_nothing (path : string) (w : World) :
  files (fst (detect_text_color path w)) = files w /\
  stdout (fst (detect_text_color path w)) = stdout w /\
  (stderr (fst (detect_text_color path w)) = stderr w \/
   exists e, stderr (fst (detect_text_color path w))
             = (stderr w ++ [("Warning: Error detecting text color: " ++ e)%string])%list
             /\ snd (detect_text_color path w) = false).
Proof.
  unfold detect_text_color, try_except, detect_body, mbind, M_bind, call.
  rewrite Image_open_eq.
  destruct (snd (Image_open path w)) as [e|img]; cbn [fst snd eprint files stdout stderr].
  - split; [reflexivity|]. split; [reflexivity|]. right. eauto.
  - destruct (pil_gray img) as [e|px]; cbn [fst snd eprint files stdout stderr mret M_ret].
    + split; [reflexivity|]. split; [reflexivity|]. right. eauto.
    + split; [reflexivity|]. split; [reflexivity|]. left. reflexivity.
Qed.

(** X11. When the image is larger than a bound (sides from 1 to 2^31 - 1,
    positive bounds below 2^1023), the size requested from [resize] is in
    neither dimension larger than the size of the image, also in the
    dimension whose bound the image does not exceed: the resize never
    enlarges. *)
Theorem resize_never_enlarges (img : Image) (width height max_width max_height : Z) :
  img_size img = (width, height) ->
  (0 < width < 2 ^ 31)%Z -> (0 < height < 2 ^ 31)%Z ->
  (0 < max_width < 2 ^ 1023)%Z -> (0 < max_height < 2 ^ 1023)%Z ->
  (max_width < width \/ max_height < height)%Z ->
  exists new_width new_height,
    resize_if_needed img max_width max_height
      = pil_resize img (new_width, new_height) /\
    (0 <= new_width <= width)%Z /\ (0 <= new_height <= height)%Z.
Proof.
  intros Hsize Hw Hh HW HH Hex.
  destruct (scaled_size_within width height max_width max_height Hw Hh HW HH Hex)
    as (rw & rh & nw & nh & H1 & H2 & H3 & H4 & H5 & _).
  destruct (truediv_ok max_width width HW Hw) as (rw' & Erw & Hrw0 & _ & Hrw1).
  destruct (truediv_ok max_height height HH Hh) as (rh' & Erh & Hrh0 & _ & Hrh1).
  rewrite H1 in Erw. injection Erw as <-. rewrite H2 in Erh. injection Erh as <-.
  destruct (py_min_spec rw rh) as (Hm1 & Hm2 & Hm3).
  assert (Hr0 : (0 < py_min rw rh)%Q) by (destruct Hm3 as [-> | ->]; assumption).
  assert (Hr1 : (py_min rw rh <= 1)%Q).
  { destruct Hex; [specialize (Hrw1 ltac:(lia)) | specialize (Hrh1 ltac:(lia))]; lra. }
  exists nw, nh. split.
  - unfold resize_if_needed. rewrite Hsize.
    assert (Hc : ((max_width <? width)%Z || (max_height <? height)%Z) = true).
    { destruct Hex as [Hlt|Hlt]; apply Z.ltb_lt in Hlt; rewrite Hlt;
        [reflexivity | apply orb_true_r]. }
    rewrite Hc, H5. reflexivity.
  - split; [apply (scale_shrinks width nw _ Hw Hr0 Hr1 H3)
           | apply (scale_shrinks height nh _ Hh Hr0 Hr1 H4)].
Qed.

(** X12. An image of width 0 that is higher than its bound makes line 46
    divide by zero: nothing is resized, preprocessing falls back to the
    source path, and the last line on standard error is the error array
    with the message of [ZeroDivisionError]. *)
Theorem zero_width_raises_division_by_zero (path : string) (w : World)
    (img : Image) (height max_width max_height : Z) :
  snd (Image_open path w) = inr img ->
  img_size img = (0%Z, height) ->
  (max_height < height)%Z ->
  resize_if_needed img max_width max_height = inl "division by zero" /\
  snd (preprocess_image path max_width max_height w) = (path, None, false) /\
  last (stderr (fst (preprocess_image path max_width max_height w)))
  = Some (dumps (error_payload "Error preprocessing image: division by zero")).
Proof.
  intros Ho Hsize Hlt.
  assert (Hr : resize_if_needed img max_width max_height = inl "division by zero").
  { unfold resize_if_needed. rewrite Hsize.
    apply Z.ltb_lt in Hlt. rewrite Hlt, orb_true_r. reflexivity. }
  split; [exact Hr|].
  destruct (preprocess_image_failure path max_width max_height w "division by zero"
              (fails_resize path max_width max_height w _ img Ho Hr)) as (w' & Hp & _).
  rewrite Hp. split; [reflexivity|]. cbn [fst eprint stderr]. apply last_snoc.
Qed.


End FurtherRuns.

(** ** What the selection returns *)

Section FurtherSelection.

(** X9. The selection invents and merges nothing: the batch it returns
    is the enhanced batch or the inverted batch, and it is empty only if
    both are. *)
Theorem selection_returns_an_input (rE rI : OcrResult) (invert_needed : bool) :
  (batch_of (select_result rE rI invert_needed) = batch_of rE \/
   batch_of (select_result rE rI invert_needed) = batch_of rI) /\
  (batch_of (select_result rE rI invert_needed) = []
   <-> batch_of rE = [] /\ batch_of rI = []).
Proof.
  rewrite select_result_batch.
  destruct (batch_of rE) as [|l ls], (batch_of rI) as [|l' ls'].
  - split; [left; reflexivity | split; auto].
  - split; [right; reflexivity | split; [discriminate | intros [_ H]; discriminate H]].
  - split; [left; reflexivity | split; [discriminate | intros [H _]; discriminate H]].
  - unfold arbiter_rule. cbn [List.length Nat.eqb negb andb].
    repeat match goal with |- context [if ?c then _ else _] => destruct c end;
      (split; [auto | split; [discriminate | intros [H _]; discriminate H]]).
Qed.

(** X10. Without the light-on-dark bias the selected batch has as many
    detections as the larger of the two batches: no detection count is
    ever given up for confidence. *)
Theorem unbiased_selection_has_most_detections (rE rI : OcrResult) :
  List.length (batch_of (select_result rE rI false))
  = Nat.max (List.length (batch_of rE)) (List.length (batch_of rI)).
Proof.
  rewrite select_result_batch.
  destruct (batch_of rE) as [|l ls], (batch_of rI) as [|l' ls']; try reflexivity.
  unfold arbiter_rule. cbn [List.length Nat.eqb negb andb bias_of is_light].
  destruct (Nat.ltb_spec (S (List.length ls)) (S (List.length ls')));
    [cbn [List.length]; lia|].
  destruct (Nat.ltb_spec (S (List.length ls')) (S (List.length ls)));
    [cbn [List.length]; lia|].
  destruct (fgt _ _); cbn [List.length]; lia.
Qed.

End FurtherSelection.

(** ** The further properties on the small platform *)

Section FurtherDemoRuns.
Import Demo.
Local Open Scope string_scope.

Lemma temporaries_removed_after_recognition_witness :
  let P := demo_platform engine_5_3 in
  let w0 := world_of P {[ "photo.png" := dark_pic ]} in
  files (process_image "photo.png" 1600 1600 w0)
  = delete (inverted_path_of "photo.png")
      (delete (enhanced_path_of "photo.png") (files w0)).
Proof.
  intros P w0.
  assert (Hpre : preprocess_image "photo.png" 1600 1600 w0
                 = (fst (preprocess_image "photo.png" 1600 1600 w0),
                    (enhanced_path_of "photo.png",
                     Some (inverted_path_of "photo.png"), true))).
  { replace (enhanced_path_of "photo.png", Some (inverted_path_of "photo.png"), true)
      with (snd (preprocess_image "photo.png" 1600 1600 w0))
      by (vm_compute; reflexivity).
    apply surjective_pairing. }
  refine (temporaries_removed_after_recognition (P := P)
            "photo.png" 1600 1600 w0 _ true
            (Some [Some [line "a" (1#2); line "b" (1#2); line "c" (1#2);
                         line "d" (1#2); line "e" (1#2)]])
            (Some [Some [line "x" (3#4); line "y" (3#4); line "z" (3#4)]])
            Hpre _ _ _);
    vm_compute; reflexivity.
Defined.

Lemma failed_preprocessing_removes_nothing_witness :
  let P := demo_platform engine_blank in
  let w0 := world_of P {[ "photo.png" := dark_pic ]} in
  files (process_image "nope.png" 1600 1600 w0)
  = files (fst (preprocess_image "nope.png" 1600 1600 w0)).
Proof.
  intros P w0.
  refine (proj1 (failed_preprocessing_removes_nothing (P := P)
                   "nope.png" 1600 1600 w0
                   "[Errno 2] No such file or directory: 'nope.png'" _)).
  apply fails_load. vm_compute. reflexivity.
Defined.

Lemma enhanced_file_left_when_inverted_save_fails_witness :
  let P := demo_platform_refusing "photo_inverted.png" engine_blank in
  let w0 := world_of P {[ "photo.png" := dark_pic ]} in
  snd (preprocess_image "photo.png" 1600 1600 w0) = ("photo.png", None, false) /\
  files (process_image "photo.png" 1600 1600 w0) !! "photo_enhanced.png"
  = Some dark_pic.
Proof.
  intros P w0.
  assert (Hsave : Image_save (dark_pic : @Image P) (enhanced_path_of "photo.png")
                    (fst (detect_text_color "photo.png" w0))
                  = (fst (Image_save (dark_pic : @Image P) (enhanced_path_of "photo.png")
                            (fst (detect_text_color "photo.png" w0))), inr ())).
  { replace (inr () : Exn + ())
      with (snd (Image_save (dark_pic : @Image P) (enhanced_path_of "photo.png")
                   (fst (detect_text_color "photo.png" w0))))
      by (vm_compute; reflexivity).
    apply surjective_pairing. }
  refine (enhanced_file_left_when_inverted_save_fails (P := P)
            "photo.png" 1600 1600 w0 _ dark_pic dark_pic dark_pic dark_pic dark_pic
            "[Errno 28] No space left on device"
            eq_refl eq_refl eq_refl eq_refl eq_refl Hsave _).
  vm_compute. reflexivity.
Defined.

Lemma preprocess_image_variants_witness :
  let P := demo_platform engine_blank in
  let w0 := world_of P {[ "photo.png" := dark_pic ]} in
  "photo_enhanced.png" = enhanced_path_of "photo.png" /\
  "photo_inverted.png" = inverted_path_of "photo.png" /\
  true = snd (detect_text_color "photo.png" w0) /\
  "photo_enhanced.png" <> "photo_inverted.png" /\
  "photo_enhanced.png" <> "photo.png" /\ "photo_inverted.png" <> "photo.png".
Proof.
  intros P w0.
  refine (preprocess_image_variants (P := P) "photo.png" 1600 1600 w0
            "photo_enhanced.png" "photo_inverted.png" true _).
  vm_compute. reflexivity.
Defined.

Lemma detect_text_color_majority_witness :
  let P := demo_platform engine_blank in
  let w0 := world_of P {[ "photo.png" := dark_pic ]} in
  snd (detect_text_color "photo.png" w0) = true
  <-> (Z.of_nat (List.length (pic_gray dark_pic))
       < 2 * pixels_where (fun v => (v <? 128)%N) (pic_gray dark_pic))%Z.
Proof.
  intros P w0.
  exact (proj1 (proj2 (detect_text_color_majority (P := P) "photo.png" w0 dark_pic
                         (pic_gray dark_pic) eq_refl eq_refl))).
Defined.

Lemma resize_never_enlarges_witness :
  let P := demo_platform engine_blank in
  exists new_width new_height,
    resize_if_needed tall_pic 1600 1600
      = pil_resize tall_pic (new_width, new_height) /\
    (0 <= new_width <= 2156)%Z /\ (0 <= new_height <= 3000)%Z.
Proof.
  intros P.
  refine (resize_never_enlarges (P := P) tall_pic 2156 3000 1600 1600 eq_refl
            _ _ _ _ _);
    first [right; reflexivity | split; reflexivity].
Defined.

Lemma zero_width_raises_division_by_zero_witness :
  let P := demo_platform engine_blank in
  let w0 := world_of P {[ "flat.png" := flat_pic ]} in
  resize_if_needed flat_pic 1600 1600 = inl "division by zero" /\
  snd (preprocess_image "flat.png" 1600 1600 w0) = ("flat.png", None, false) /\
  last (stderr (fst (preprocess_image "flat.png" 1600 1600 w0)))
  = Some (dumps (error_payload "Error preprocessing image: division by zero")).
Proof.
  intros P w0.
  exact (zero_width_raises_division_by_zero (P := P) "flat.png" w0 flat_pic
           3000 1600 1600 eq_refl eq_refl eq_refl).
Defined.


End FurtherDemoRuns.
